(** * Tabular SARSA agent ([reinforcement/agent.py], class [AgentQ])

    A shallow embedding of the value table, the greedy policy and the
    training loop of [AgentQ], followed by the properties of the
    specification that were checked against it.

    Python floats (and numpy's float64) are Rocq's primitive binary64
    floats: every arithmetic operation and comparison below is the IEEE 754
    one that Python performs. *)

From Stdlib Require Import ZArith List Bool Lia Floats.
From stdpp Require Import base option list gmap strings.

Set Default Proof Using "Type".
Set Warnings "-inexact-float".

(** ** Python values used by the agent *)

(** The exceptions the modelled code can raise. *)
Inductive exn : Set :=
| KeyError
| IndexError
| ValueError
| UnboundLocalError.

(** Result of running a piece of Python: a value, an exception, or no answer
    within the number of loop iterations allowed ([while True] has no bound of
    its own). *)
Inductive outcome (A : Type) : Type :=
| Returned (a : A)
| Raised (e : exn)
| OutOfFuel.
Arguments Returned {A} a.
Arguments Raised {A} e.
Arguments OutOfFuel {A}.

(** [Action] of [reinforcement/joc.py], with the four members that
    [AgentQ._action_to_symbol] lists. *)
Inductive Action : Set := MOVE_LEFT | MOVE_RIGHT | MOVE_UP | MOVE_DOWN.

(** Modelled from the spec: [Status] is declared in [reinforcement/joc.py],
    which is not part of the sources; [train] only tests membership in
    [(Status.WIN, Status.LOSE)], and the spec names the remaining value
    IN_PROGRESS. *)
Inductive Status : Set := IN_PROGRESS | WIN | LOSE.

#[global] Instance Action_eq_dec : EqDecision Action.
Proof. solve_decision. Defined.

Definition Action_to_nat (a : Action) : nat :=
  match a with MOVE_LEFT => 0 | MOVE_RIGHT => 1 | MOVE_UP => 2 | MOVE_DOWN => 3 end.

Definition Action_of_nat (n : nat) : option Action :=
  match n with
  | 0 => Some MOVE_LEFT | 1 => Some MOVE_RIGHT
  | 2 => Some MOVE_UP | 3 => Some MOVE_DOWN
  | _ => None
  end.

#[global] Instance Action_countable : Countable Action.
Proof.
  apply (inj_countable Action_to_nat Action_of_nat).
  intros []; reflexivity.
Defined.

#[global] Instance Status_eq_dec : EqDecision Status.
Proof. solve_decision. Defined.

(** A hashable state: the tuple of integers the environment hands out (a
    position [(x, y)]), or the tuple obtained from a flattened array. *)
Definition Key : Type := list Z.

(** A numpy array of any rank, as nested axes, with items of type [A]. *)
#[warnings="-register-all"]
Inductive ndarray (A : Type) : Type :=
| Item (z : A)
| Axis (sub : list (ndarray A)).

Arguments Item {A} z.
Arguments Axis {A} sub.

(** [ndarray.flatten()] followed by [tuple(...)]: the elements in row-major
    order. *)
Fixpoint flatten {A} (a : ndarray A) : list A :=
  match a with
  | Item z => [z]
  | Axis sub =>
      (fix rows (l : list (ndarray A)) : list A :=
         match l with
         | [] => []
         | r :: l' => flatten r ++ rows l'
         end) sub
  end.

(** What [q] and [predict] may receive as [state]. The keys of the table are
    tuples of integers (the positions the environment hands out, which
    [print_Q] subtracts from each other), so the arrays are integer arrays. *)
Inductive state_arg : Type :=
| NdArray (a : ndarray Z)
| Hashable (k : Key).

(** ** numpy and the built-ins *)

Definition is_nan (x : float) : bool := negb (x =? x)%float.

(** [np.maximum(a, b)]: [a] when [a >= b] or [a] is NaN, else [b] (so a NaN
    on either side is propagated). The order in which a reduction applies it
    changes the result at most between values that compare equal. *)
Definition np_maximum (a b : float) : float :=
  if (b <=? a)%float || is_nan a then a else b.

(** [np.max(arr)] of a one-dimensional array; [None] stands for the
    [ValueError] numpy raises on an empty array. *)
Definition np_max (arr : list float) : option float :=
  match arr with
  | [] => None
  | x :: rest => Some (foldl np_maximum x rest)
  end.

(** [np.nonzero(mask)[0]]: the indices at which [mask] is true, ascending. *)
Fixpoint nonzero_from (i : nat) (mask : list bool) : list nat :=
  match mask with
  | [] => []
  | b :: rest => if b then i :: nonzero_from (S i) rest else nonzero_from (S i) rest
  end.

Definition np_nonzero (mask : list bool) : list nat := nonzero_from 0 mask.

(** The built-in [max(a, b)] on two arguments: [b] if [b > a], else [a]. *)
Definition py_max (a b : float) : float := if (a <? b)%float then b else a.

(** ** The environment and the random sources *)

(** The collaborator behind [self.environment]: an action enumeration and two
    operations that change the environment's own state. The states it hands
    out are hashable tuples ([train] uses them as dictionary keys, [print_Q]
    unpacks them as [x, y]). *)
Record Environment : Type := {
  World : Type;
  actions : list Action;
  reset : Z * Z -> World -> Key * World;
  _aplica : Action -> World -> (Key * float * Status) * World;
}.

(** The two process-wide generators: [np.random.random()] yields the next
    float of one stream; [random.choice] consumes the next raw draw of the
    other and reduces it to an index below the length of the sequence. *)
Record Entropy : Type := {
  np_stream : nat -> float;
  py_stream : nat -> nat;
}.

(** ** The agent's memory and the monad of its methods *)

Section Agent.
Context (env : Environment) (rnd : Entropy).

(** What a method call can read and change: the table [self.Q], the state
    of the environment, and how much of each random stream is used. *)
Record Mem : Type := {
  Q : gmap (Key * Action) float;
  world : World env;
  np_used : nat;
  py_used : nat;
}.

Definition M (A : Type) : Type := Mem -> outcome (A * Mem).

#[export] Instance M_ret : MRet M := fun A a mem => Returned (a, mem).

#[export] Instance M_bind : MBind M := fun A B f m mem =>
  match m mem with
  | Returned (a, mem') => f a mem'
  | Raised e => Raised e
  | OutOfFuel => OutOfFuel
  end.

Definition raise {A} (e : exn) : M A := fun _ => Raised e.
Definition out_of_fuel {A} : M A := fun _ => OutOfFuel.

Definition get_Q : M (gmap (Key * Action) float) := fun mem => Returned (Q mem, mem).

Definition set_Q (k : Key * Action) (v : float) : M unit := fun mem =>
  Returned (tt, {| Q := <[k := v]> (Q mem); world := world mem;
                   np_used := np_used mem; py_used := py_used mem |}).

(** [self.Q[k]] as an expression: [KeyError] when [k] is absent. *)
Definition Q_getitem (k : Key * Action) : M float := fun mem =>
  match Q mem !! k with
  | Some v => Returned (v, mem)
  | None => Raised KeyError
  end.

(** [np.random.random()] *)
Definition np_random_random : M float := fun mem =>
  Returned (np_stream rnd (np_used mem),
            {| Q := Q mem; world := world mem;
               np_used := S (np_used mem); py_used := py_used mem |}).

(** [random.choice(seq)]: [IndexError] on an empty sequence, else the
    element at a drawn index below [len(seq)]. *)
Definition random_choice {A} (seq : list A) : M A := fun mem =>
  match seq !! (py_stream rnd (py_used mem) `mod` length seq)%nat with
  | Some x =>
      Returned (x, {| Q := Q mem; world := world mem;
                      np_used := np_used mem; py_used := S (py_used mem) |})
  | None => Raised IndexError
  end.

(** [seq[i]] on a list *)
Definition getitem {A} (seq : list A) (i : nat) : M A :=
  match seq !! i with
  | Some x => mret x
  | None => raise IndexError
  end.

Definition environment_reset (pos : Z * Z) : M Key := fun mem =>
  let '(state, w) := reset env pos (world mem) in
  Returned (state, {| Q := Q mem; world := w;
                      np_used := np_used mem; py_used := py_used mem |}).

Definition environment_aplica (action : Action) : M (Key * float * Status) := fun mem =>
  let '(r, w) := _aplica env action (world mem) in
  Returned (r, {| Q := Q mem; world := w;
                  np_used := np_used mem; py_used := py_used mem |}).

(** ** [AgentQ.q] (lines 37-49) *)

Definition as_key (state : state_arg) : Key :=
  match state with
  | NdArray a => flatten a
  | Hashable k => k
  end.

(** The loop of [q]: [q_aprox] starts as [np.zeros(len(actions))] and slot
    [i] is overwritten when [(state, action)] is a key of the table. *)
Definition q_loop (table : gmap (Key * Action) float) (state : Key)
    (acc : list float * nat) (action : Action) : list float * nat :=
  let '(q_aprox, i) := acc in
  (match table !! (state, action) with
   | Some v => <[i := v]> q_aprox
   | None => q_aprox
   end, S i).

Definition q_of (table : gmap (Key * Action) float) (state : state_arg) : list float :=
  let state := as_key state in
  let q_aprox := replicate (length (actions env)) 0%float in
  fst (foldl (q_loop table state) (q_aprox, 0%nat) (actions env)).

Definition q (state : state_arg) : M (list float) :=
  table ← get_Q; mret (q_of table state).

(** The indices of the maximal entries, [np.nonzero(q == np.max(q))[0]];
    [np.max] raises [ValueError] on an empty array. *)
Definition argmaxes (qv : list float) : M (list nat) :=
  match np_max qv with
  | Some m => mret (np_nonzero (map (fun x => (x =? m)%float) qv))
  | None => raise ValueError
  end.

(** ** [AgentQ.actua] (lines 51-66): returns [random.choice(actions)], the
    drawn element of the index array itself. *)
Definition actua (percepcio : gmap string state_arg) : M nat :=
  match percepcio !! "POS"%string with
  | None => raise KeyError
  | Some pos =>
      qv ← q pos;
      idxs ← argmaxes qv;
      random_choice idxs
  end.

(** ** [AgentQ.predict] (lines 71-86) *)
Definition predict (state : state_arg) : M Action :=
  qv ← q state;
  idxs ← argmaxes qv;
  i ← random_choice idxs;
  getitem (actions env) i.

(** ** [AgentQ.train] (lines 192-339) *)

(** The grid of [train], [0] = free, [1] = occupied (lines 225-236). *)
Definition maze : list (list Z) :=
  [ [0; 1; 0; 0; 0; 0; 0; 0];
    [0; 1; 0; 1; 0; 1; 0; 0];
    [0; 1; 0; 1; 1; 0; 1; 0];
    [0; 1; 0; 1; 0; 0; 0; 0];
    [0; 1; 0; 1; 0; 1; 0; 0];
    [0; 0; 0; 1; 0; 1; 1; 1];
    [0; 1; 1; 0; 0; 0; 0; 0];
    [0; 1; 0; 0; 0; 1; 0; 0] ]%Z.

(** [maze.size] *)
Definition maze_size : Z := Z.of_nat (length (concat maze)).

(** [np.sqrt(maze.size) - 1]; the size is a perfect square, so the integer
    root is the float one and the comparisons with it are exact. *)
Definition last_index : Z := (Z.sqrt maze_size - 1)%Z.

(** An index into an axis of length [n], as numpy resolves it: negative
    indices count from the end, anything outside [-n, n) is an [IndexError]
    ([None]). *)
Definition np_index (n i : Z) : option nat :=
  if ((0 <=? i) && (i <? n))%Z then Some (Z.to_nat i)
  else if ((- n <=? i) && (i <? 0))%Z then Some (Z.to_nat (i + n))
  else None.

(** [maze[y, x]] *)
Definition maze_at (pos : Z * Z) : option Z :=
  let '(x, y) := pos in
  i ← np_index (Z.of_nat (length maze)) y;
  row ← maze !! i;
  j ← np_index (Z.of_nat (length row)) x;
  row !! j.

(** One move of the start cell (lines 311-322, repeated at 324-335). *)
Definition next_cell (pos : Z * Z) : Z * Z :=
  let '(x, y) := pos in
  if (y <? last_index)%Z then
    if (x <? last_index)%Z then ((x + 1)%Z, y) else (0%Z, (y + 1)%Z)
  else
    if (x <? last_index)%Z then ((x + 1)%Z, y) else (0%Z, 0%Z).

(** [while maze[y,x] == 1: ...] (lines 323-335) *)
Fixpoint skip_occupied (fuel : nat) (pos : Z * Z) : M (Z * Z) :=
  match maze_at pos with
  | None => raise IndexError
  | Some cell =>
      if (cell =? 1)%Z then
        match fuel with
        | O => out_of_fuel
        | S fuel' => skip_occupied fuel' (next_cell pos)
        end
      else mret pos
  end.

(** Epsilon-greedy choice (lines 248-251 and 269-272). *)
Definition choose_action (exploration_rate : float) (state : Key) : M Action :=
  u ← np_random_random;
  if (u <? exploration_rate)%float then random_choice (actions env)
  else predict (Hashable state).

(** "(Ensure certainty)" (lines 254-259 and 275-280). *)
Definition ensure (k : Key * Action) : M unit :=
  table ← get_Q;
  match table !! k with
  | None => set_Q k 0%float
  | Some _ => mret tt
  end.

(** The assignment of lines 284-286, its three table reads in evaluation
    order. *)
Definition sarsa_update (discount learning_rate : float)
    (state : Key) (action : Action) (reward : float)
    (next_state : Key) (next_action : Action) : M unit :=
  old ← Q_getitem (state, action);
  nxt ← Q_getitem (next_state, next_action);
  old' ← Q_getitem (state, action);
  set_Q (state, action)
        (old + learning_rate * (reward + discount * nxt - old'))%float.

(** One pass through the body of [while True] up to the update
    (lines 264-286). *)
Definition td_step (discount exploration_rate learning_rate : float)
    (state : Key) (action : Action) (cumulative_reward : float)
    : M (Key * Action * float * Status) :=
  '(next_state, reward, status) ← environment_aplica action;
  let cumulative_reward := (cumulative_reward + reward)%float in
  next_action ← choose_action exploration_rate next_state;
  ensure (next_state, next_action);;
  sarsa_update discount learning_rate state action reward next_state next_action;;
  mret (next_state, next_action, cumulative_reward, status).

(** [status in (Status.WIN, Status.LOSE)] *)
Definition is_terminal (status : Status) : bool :=
  match status with
  | WIN | LOSE => true
  | IN_PROGRESS => false
  end.

(** [while True: ...] (lines 261-299); gives the values of
    [cumulative_reward] and [status] at the [break]. *)
Fixpoint episode_loop (fuel : nat) (discount exploration_rate learning_rate : float)
    (state : Key) (action : Action) (cumulative_reward : float)
    : M (float * Status) :=
  match fuel with
  | O => out_of_fuel
  | S fuel' =>
      '(next_state, next_action, cumulative_reward, status) ←
        td_step discount exploration_rate learning_rate state action cumulative_reward;
      if is_terminal status then mret (cumulative_reward, status)
      else episode_loop fuel' discount exploration_rate learning_rate
             next_state next_action cumulative_reward
  end.

(** The local variables of [train] that live across episodes. *)
Record Locals : Type := {
  cumulative_reward : float;
  cumulative_reward_history : list float;
  win_history : list Status;
  exploration_rate : float;
  x : Z;
  y : Z;
  episode : option Z;   (* unbound until the [for] assigns it *)
}.

(** The two constants of lines 220-221; as in Python, the literals denote
    the nearest binary64 values. *)
Definition min_exploration_rate : float := 0.01%float.
Definition decay_rate : float := 0.9975%float.

(** The body of [for episode in range(1, episodes + 1)] (lines 243-335). *)
Definition episode_body (fuel : nat) (discount learning_rate : float)
    (l : Locals) (episode_number : Z) : M Locals :=
  state ← environment_reset (x l, y l);
  action ← choose_action (exploration_rate l) state;
  ensure (state, action);;
  '(cumulative_reward, status) ←
    episode_loop fuel discount (exploration_rate l) learning_rate
      state action (cumulative_reward l);
  let cumulative_reward_history := cumulative_reward_history l ++ [cumulative_reward] in
  let exploration_rate :=
    py_max min_exploration_rate (exploration_rate l * decay_rate)%float in
  '(x, y) ← skip_occupied fuel (next_cell (x l, y l));
  mret {| cumulative_reward := cumulative_reward;
          cumulative_reward_history := cumulative_reward_history;
          win_history := win_history l;
          exploration_rate := exploration_rate;
          x := x; y := y;
          episode := Some episode_number |}.

(** A [for] statement over a list, threading the locals. *)
Fixpoint for_each {S A} (body : S -> A -> M S) (s : S) (items : list A) : M S :=
  match items with
  | [] => mret s
  | a :: rest => s' ← body s a; for_each body s' rest
  end.

(** The locals before the loop (lines 217-221, 237-238). *)
Definition initial_locals (exploration_rate : float) : Locals :=
  {| cumulative_reward := 0%float;
     cumulative_reward_history := [];
     win_history := [];
     exploration_rate := exploration_rate;
     x := 0; y := 0;
     episode := None |}.

(** The loop of [train] alone (line 241 to 335). *)
Definition train_loop (fuel : nat) (discount exploration_rate learning_rate : float)
    (episodes : Z) : M Locals :=
  for_each (episode_body fuel discount learning_rate)
           (initial_locals exploration_rate) (seqZ 1 episodes).

(** [train]: the loop, then the log line and the [return] of lines 337-339,
    both of which read the loop variable [episode]. [fuel] bounds the
    iterations of each [while]. *)
Definition train (fuel : nat) (discount exploration_rate learning_rate : float)
    (episodes : Z) (stop_at_convergence : bool)
    : M (list float * list Status * Z) :=
  l ← train_loop fuel discount exploration_rate learning_rate episodes;
  match episode l with
  | None => raise UnboundLocalError
  | Some episode => mret (cumulative_reward_history l, win_history l, episode)
  end.

End Agent.

Arguments Q {env} m.
Arguments world {env} m.
Arguments np_used {env} m.
Arguments py_used {env} m.
Arguments Build_Mem {env} Q world np_used py_used.

(** ** Notions used to state the properties *)

(** [estimate(state, action)] of the specification: the stored value, [0.0]
    when the key is absent (the [self.Q.get((state, action), 0.0)] of
    [print_Q], line 127). *)
Definition estimate (table : gmap (Key * Action) float) (state : Key) (action : Action)
    : float :=
  default 0%float (table !! (state, action)).

(** A freshly constructed agent ([self.Q = {}], line 35) in a given world,
    with both random streams at their start. *)
Definition fresh_agent {env : Environment} (w : World env) : Mem env :=
  {| Q := ∅; world := w; np_used := 0; py_used := 0 |}.

(** The memory after one more draw of [random.choice]. *)
Definition after_choice {env : Environment} (mem : Mem env) : Mem env :=
  {| Q := Q mem; world := world mem; np_used := np_used mem; py_used := S (py_used mem) |}.

(** One application of the decay of line 302. *)
Definition decay (exploration_rate : float) : float :=
  py_max min_exploration_rate (exploration_rate * decay_rate)%float.

(** The history built from the rewards of successive episodes when the
    accumulator is carried from one episode to the next: each entry adds the
    rewards of its episode, one by one, to the previous entry. *)
Fixpoint running_totals (carried : float) (rewards : list (list float)) : list float :=
  match rewards with
  | [] => []
  | rs :: rest =>
      let total := foldl PrimFloat.add carried rs in
      total :: running_totals total rest
  end.

Section PerEpisode.
Context (env : Environment) (rnd : Entropy).

Definition with_cumulative_reward (c : float) (l : Locals) : Locals :=
  {| cumulative_reward := c;
     cumulative_reward_history := cumulative_reward_history l;
     win_history := win_history l;
     exploration_rate := exploration_rate l;
     x := x l; y := y l;
     episode := episode l |}.

(** The episode as the specification words it: the reward accumulator
    belongs to one episode, so it starts from zero in each of them. *)
Definition episode_body_per_episode (fuel : nat) (discount learning_rate : float)
    (l : Locals) (episode_number : Z) : M env Locals :=
  episode_body env rnd fuel discount learning_rate
    (with_cumulative_reward 0%float l) episode_number.

Definition train_loop_per_episode (fuel : nat)
    (discount exploration_rate learning_rate : float) (episodes : Z) : M env Locals :=
  for_each env (episode_body_per_episode fuel discount learning_rate)
           (initial_locals exploration_rate) (seqZ 1 episodes).

Definition train_per_episode (fuel : nat)
    (discount exploration_rate learning_rate : float)
    (episodes : Z) (stop_at_convergence : bool)
    : M env (list float * list Status * Z) :=
  l ← train_loop_per_episode fuel discount exploration_rate learning_rate episodes;
  match episode l with
  | None => raise env UnboundLocalError
  | Some episode => mret (cumulative_reward_history l, win_history l, episode)
  end.

End PerEpisode.

(** The value of a call that returned. *)
Definition returned_value {A S : Type} (o : outcome (A * S)) : option A :=
  match o with
  | Returned (a, _) => Some a
  | _ => None
  end.

(** The memory after [np.random.random()], after a move of the
    environment, and with another table. *)
Definition after_random {env : Environment} (mem : Mem env) : Mem env :=
  {| Q := Q mem; world := world mem; np_used := S (np_used mem); py_used := py_used mem |}.

Definition after_aplica {env : Environment} (w : World env) (mem : Mem env) : Mem env :=
  {| Q := Q mem; world := w; np_used := np_used mem; py_used := py_used mem |}.

Definition with_Q {env : Environment} (table : gmap (Key * Action) float) (mem : Mem env)
    : Mem env :=
  {| Q := table; world := world mem; np_used := np_used mem; py_used := py_used mem |}.

(** The table after "(Ensure certainty)" for key [k]. *)
Definition ensured (table : gmap (Key * Action) float) (k : Key * Action)
    : gmap (Key * Action) float :=
  match table !! k with
  | None => <[k := 0%float]> table
  | Some _ => table
  end.

(** The value that lines 284-286 store, in terms of [estimate]. *)
Definition td_target (discount learning_rate : float) (table : gmap (Key * Action) float)
    (state : Key) (action : Action) (reward : float)
    (next_state : Key) (next_action : Action) : float :=
  let old := estimate table state action in
  (old + learning_rate * (reward + discount * estimate table next_state next_action - old))%float.

(** The tables without NaN. *)
Definition nan_free (table : gmap (Key * Action) float) : Prop :=
  forall k v, table !! k = Some v -> is_nan v = false.

(** The locals after an episode that ended with accumulator [c] and moved the
    start cell to [pos]. *)
Definition locals_after (l : Locals) (c : float) (pos : Z * Z) (n : Z) : Locals :=
  {| cumulative_reward := c;
     cumulative_reward_history := cumulative_reward_history l ++ [c];
     win_history := win_history l;
     exploration_rate := decay (exploration_rate l);
     x := pos.1; y := pos.2;
     episode := Some n |}.

(** Two sets of locals that an episode cannot tell apart: the accumulator and
    the history are only written. *)
Definition same_but_rewards (l0 l : Locals) : Prop :=
  x l0 = x l /\ y l0 = y l /\ exploration_rate l0 = exploration_rate l /\
  win_history l0 = win_history l /\ episode l0 = episode l.

(** The rewards of a run, read off the environment. *)
Section RewardTrace.
Context (env : Environment) (rnd : Entropy).

(** What line 264 binds to [reward]: the reward in the answer of [_aplica]
    to [action], in the state the environment is in. *)
Definition reward_of (action : Action) (mem : Mem env) : float :=
  (_aplica env action (world mem)).1.1.2.

(** The rewards of the moves of the episode that starts with [action] in
    [state], one for each pass through [while True] (lines 261-299), in
    order. *)
Fixpoint episode_rewards (fuel : nat) (discount exploration_rate learning_rate : float)
    (state : Key) (action : Action) (mem : Mem env) : list float :=
  match fuel with
  | O => []
  | S fuel' =>
      reward_of action mem ::
      match td_step env rnd discount exploration_rate learning_rate
                    state action 0%float mem with
      | Returned ((next_state, next_action, _, status), mem') =>
          if is_terminal status then []
          else episode_rewards fuel' discount exploration_rate learning_rate
                 next_state next_action mem'
      | _ => []
      end
  end.

(** The rewards of the episode that the body of the [for] runs from the
    locals [l]: those of the moves that follow lines 244-259. *)
Definition episode_body_rewards (fuel : nat) (discount learning_rate : float)
    (l : Locals) (mem : Mem env) : list float :=
  match (state ← environment_reset env (x l, y l);
         action ← choose_action env rnd (exploration_rate l) state;
         ensure env (state, action);;
         mret (state, action)) mem with
  | Returned ((state, action), mem') =>
      episode_rewards fuel discount (exploration_rate l) learning_rate state action mem'
  | _ => []
  end.

(** The rewards of the episodes of a run, episode by episode. *)
Fixpoint run_rewards (fuel : nat) (discount learning_rate : float)
    (l : Locals) (items : list Z) (mem : Mem env) : list (list float) :=
  match items with
  | [] => []
  | n :: rest =>
      episode_body_rewards fuel discount learning_rate l mem ::
      match episode_body env rnd fuel discount learning_rate l n mem with
      | Returned (l', mem') => run_rewards fuel discount learning_rate l' rest mem'
      | _ => []
      end
  end.

Definition train_rewards (fuel : nat) (discount exploration_rate learning_rate : float)
    (episodes : Z) (mem : Mem env) : list (list float) :=
  run_rewards fuel discount learning_rate (initial_locals exploration_rate)
              (seqZ 1 episodes) mem.

End RewardTrace.

(** ** Indexing an array *)





(** ** Order of binary64 values *)

(** Position of a float that is not NaN on the extended real line, as a
    triple compared lexicographically: class, exponent, mantissa. *)
Definition SFkey (v : spec_float) : Z * Z * Z :=
  match v with
  | S754_nan => (0, 0, 0)
  | S754_zero _ => (0, 0, 0)
  | S754_infinity true => (-2, 0, 0)
  | S754_infinity false => (2, 0, 0)
  | S754_finite true m e => (-1, - e, - Z.pos m)
  | S754_finite false m e => (1, e, Z.pos m)
  end%Z.

Definition fkey (v : float) : Z * Z * Z := SFkey (Prim2SF v).

Definition SFis_nan (v : spec_float) : bool :=
  match v with S754_nan => true | _ => false end.

Definition lex_cmp (a b : Z * Z * Z) : comparison :=
  let '(a1, a2, a3) := a in
  let '(b1, b2, b3) := b in
  match (a1 ?= b1)%Z with
  | Eq => match (a2 ?= b2)%Z with
          | Eq => (a3 ?= b3)%Z
          | c => c
          end
  | c => c
  end.

Definition lex_lt (a b : Z * Z * Z) : Prop :=
  (a.1.1 < b.1.1 \/
   (a.1.1 = b.1.1 /\ (a.1.2 < b.1.2 \/ (a.1.2 = b.1.2 /\ a.2 < b.2))))%Z.

(** The mantissa of [decay_rate], whose exponent is [-53]. *)
Definition decay_mantissa : positive := 8984681256604140.

(** ** [AgentQ._action_to_symbol] (lines 173-190) *)

(** What [_action_to_symbol] may be given: a member of [Action], or anything
    else ([print_Q] passes the string ['-'] when it found no action). *)
Inductive symbol_arg : Type :=
| Member (a : Action)
| NotAnAction (s : string).

Definition _action_to_symbol (action : symbol_arg) : string :=
  match action with
  | Member MOVE_LEFT => "←"
  | Member MOVE_RIGHT => "→"
  | Member MOVE_UP => "↑"
  | Member MOVE_DOWN => "↓"
  | NotAnAction _ => "?"
  end.

(** ** [AgentQ.print_Q] (lines 88-171) *)

(** The built-ins [min] and [max] on a list: [None] stands for the
    [ValueError] raised on an empty one. [max] keeps the first element and
    replaces it by each later one that is greater. *)
Definition min_int (l : list Z) : option Z :=
  match l with
  | [] => None
  | v :: rest => Some (foldl Z.min v rest)
  end.

Definition max_int (l : list Z) : option Z :=
  match l with
  | [] => None
  | v :: rest => Some (foldl Z.max v rest)
  end.

Definition max_float (l : list float) : option float :=
  match l with
  | [] => None
  | v :: rest => Some (foldl py_max v rest)
  end.

(** The keys of a dict built from a sequence of keys: each key once, at the
    position of its first occurrence. *)
Fixpoint dict_keys (l : list Action) : list Action :=
  match l with
  | [] => []
  | a :: rest => a :: filter (fun b => b <> a) (dict_keys rest)
  end.

(** [set(state for (state, action) in self.Q.keys())] *)
Definition table_states (table : gmap (Key * Action) float) : gset Key :=
  set_map fst (dom table).

(** [m[i][j] = v] on a matrix of optional entries ([None] for an
    [IndexError]). *)
Definition matrix_set {A} (m : list (list (option A))) (i j : Z) (v : A)
    : option (list (list (option A))) :=
  r ← np_index (Z.of_nat (length m)) i;
  row ← m !! r;
  c ← np_index (Z.of_nat (length row)) j;
  Some (<[r := <[c := Some v]> row]> m).

(** A cell of the displayed value matrix: the placeholder ['-'] or a number. *)
Inductive q_cell : Type :=
| Placeholder
| Number (v : float).

(** What [print_Q] shows: the notice for an empty table, or the two display
    matrices, row by row. The conversion of the numbers to text (two
    decimals, lines 153-171) is not part of the model. *)
Inductive printed : Type :=
| Q_table_is_empty
| Matrices (Q_matrix_display : list (list q_cell))
           (Policy_matrix_display : list (list string)).

(** [np.where(m == None, '-', m)] on the two matrices (lines 150-151). *)
Definition display_Q (m : list (list (option float))) : list (list q_cell) :=
  map (map (fun c => match c with None => Placeholder | Some v => Number v end)) m.

Definition display_Policy (m : list (list (option string))) : list (list string) :=
  map (map (fun c => match c with None => "-"%string | Some s => s end)) m.

Section Reporter.
Context (env : Environment) (rnd : Entropy).
(** The order in which Python iterates over a set. *)
Context (set_iter : gset Key -> list Key).

(** The body of [for state in states] (lines 123-147). *)
Definition print_Q_state (min_x min_y : Z)
    (matrices : list (list (option float)) * list (list (option string)))
    (state : Key)
    : M env (list (list (option float)) * list (list (option string))) :=
  let '(Q_matrix, Policy_matrix) := matrices in
  match state with
  | [x; y] =>
      table ← get_Q env;
      let actions_q :=
        map (fun action => (action, estimate table state action))
            (dict_keys (actions env)) in
      '(max_q, best_action) ←
        match max_float (map snd actions_q) with
        | Some max_q =>
            let max_actions :=
              map fst (filter (fun aq => (aq.2 =? max_q)%float = true) actions_q) in
            best_action ← random_choice env rnd max_actions;
            mret (max_q, Member best_action)
        | None => mret (0%float, NotAnAction "-")
        end;
      let matrix_y := (y - min_y)%Z in
      let matrix_x := (x - min_x)%Z in
      match matrix_set Q_matrix matrix_y matrix_x max_q,
            matrix_set Policy_matrix matrix_y matrix_x (_action_to_symbol best_action) with
      | Some Q_matrix, Some Policy_matrix => mret (Q_matrix, Policy_matrix)
      | _, _ => raise env IndexError
      end
  | _ => raise env ValueError   (* [x, y = state] *)
  end.

Definition print_Q : M env printed :=
  table ← get_Q env;
  let states := table_states table in
  if decide (states = ∅) then mret Q_table_is_empty
  else
    match mapM (fun s : Key => s !! 0%nat) (set_iter states),
          mapM (fun s : Key => s !! 1%nat) (set_iter states) with
    | Some xs, Some ys =>
        match min_int xs, max_int xs, min_int ys, max_int ys with
        | Some min_x, Some max_x, Some min_y, Some max_y =>
            let width := (max_x - min_x + 1)%Z in
            let height := (max_y - min_y + 1)%Z in
            let Q_matrix := replicate (Z.to_nat height) (replicate (Z.to_nat width) None) in
            let Policy_matrix :=
              replicate (Z.to_nat height) (replicate (Z.to_nat width) None) in
            '(Q_matrix, Policy_matrix) ←
              for_each env (print_Q_state min_x min_y) (Q_matrix, Policy_matrix)
                       (set_iter states);
            mret (Matrices (display_Q Q_matrix) (display_Policy Policy_matrix))
        | _, _, _, _ => raise env ValueError
        end
    | _, _ => raise env IndexError
    end.

End Reporter.

(** ** Notions used to state the properties of [print_Q] and of the start cells *)

(** The entry of a matrix at row [i], column [j]. *)
Definition entry {A} (m : list (list A)) (i j : nat) : option A :=
  row ← m !! i; row !! j.

(** A matrix of [h] rows of [w] entries. *)
Definition has_shape {A} (m : list (list A)) (h w : nat) : Prop :=
  length m = h /\ Forall (fun row => length row = w) m.

(** What [print_Q] reports for a state: the greatest of its stored values
    over the actions, with the symbol of an action that has it; [0.0] and the
    symbol of ['-'] when the environment has no action. *)
Definition reported (env : Environment) (table : gmap (Key * Action) float)
    (state : Key) (value : float) (symbol : string) : Prop :=
  match max_float (map (estimate table state) (dict_keys (actions env))) with
  | Some max_q =>
      value = max_q /\
      exists a, a ∈ actions env /\ (estimate table state a =? max_q)%float = true /\
                symbol = _action_to_symbol (Member a)
  | None => value = 0%float /\ symbol = _action_to_symbol (NotAnAction "-")
  end.

(** The memory after [print_Q] has dealt with [n] states: one draw of
    [random.choice] for each, unless there is no action to choose from. *)
Definition after_states {env : Environment} (n : nat) (mem : Mem env) : Mem env :=
  {| Q := Q mem; world := world mem; np_used := np_used mem;
     py_used := ((if decide (actions env = []) then 0 else n) + py_used mem)%nat |}.

Section Bounds.
Context (env : Environment) (table : gmap (Key * Action) float).
Context (min_x max_x min_y max_y : Z).

(** The position of state [(x, y)] in the matrices. *)
Definition row_of (y : Z) : nat := Z.to_nat (y - min_y).

Definition column_of (x : Z) : nat := Z.to_nat (x - min_x).

Definition in_box (x y : Z) : Prop := (min_x <= x <= max_x /\ min_y <= y <= max_y)%Z.

(** The matrices when the states [done] have been dealt with. *)
Definition filled (done : list Key)
    (qm : list (list (option float))) (pm : list (list (option string))) : Prop :=
  has_shape qm (Z.to_nat (max_y - min_y + 1)) (Z.to_nat (max_x - min_x + 1)) /\
  has_shape pm (Z.to_nat (max_y - min_y + 1)) (Z.to_nat (max_x - min_x + 1)) /\
  (forall x y, in_box x y -> [x; y] ∈ done ->
     exists value symbol,
       entry qm (row_of y) (column_of x) = Some (Some value) /\
       entry pm (row_of y) (column_of x) = Some (Some symbol) /\
       reported env table [x; y] value symbol) /\
  (forall x y, in_box x y -> [x; y] ∉ done ->
     entry qm (row_of y) (column_of x) = Some None /\
     entry pm (row_of y) (column_of x) = Some None).

End Bounds.

(** The least box around the states of a table, all of them pairs. *)
Definition bounding_box (states : gset Key) (min_x max_x min_y max_y : Z) : Prop :=
  (forall s, s ∈ states -> exists x y, s = [x; y] /\ in_box min_x max_x min_y max_y x y) /\
  (exists y, [min_x; y] ∈ states) /\ (exists y, [max_x; y] ∈ states) /\
  (exists x, [x; min_y] ∈ states) /\ (exists x, [x; max_y] ∈ states).

(** The cells of the grid of [train], row by row, as [(x, y)]. *)
Definition grid_cells : list (Z * Z) :=
  y ← seqZ 0 (Z.of_nat (length maze));
  x ← seqZ 0 (Z.of_nat (length maze));
  [(x, y)].

(** The free ones, in the same order. *)
Definition free_cells : list (Z * Z) :=
  filter (fun pos => maze_at pos = Some 0%Z) grid_cells.

(** ** Concrete environments *)

Module Demo.

Definition four_actions : list Action := [MOVE_LEFT; MOVE_RIGHT; MOVE_UP; MOVE_DOWN].

(** Every move reaches the goal at once: reward [1.0], status WIN. The state
    after [reset] is the start position itself. *)
Definition win_at_once : Environment :=
  {| World := unit;
     actions := four_actions;
     reset := fun pos w => ([pos.1; pos.2], w);
     _aplica := fun _ w => (([7; 7]%Z, 1%float, WIN), w) |}.

(** A corridor along [x], entered at cell 0 whatever the start position asked
    for: LEFT moves one cell back, every other action one cell forward; the
    third cell forward wins with reward [10.0], the third cell back loses, and
    every other move costs [0.25]. *)
Definition corridor_move (a : Action) (pos : Z) : Z :=
  match a with
  | MOVE_LEFT => pos - 1
  | _ => pos + 1
  end%Z.

Definition corridor : Environment :=
  {| World := Z;
     actions := four_actions;
     reset := fun _ _ => ([0; 0]%Z, 0%Z);
     _aplica := fun a pos =>
       let pos' := corridor_move a pos in
       if (3 <=? pos')%Z then (([pos'; 0%Z], 10%float, WIN), pos')
       else if (pos' <=? -3)%Z then (([pos'; 0%Z], (-0.25)%float, LOSE), pos')
       else (([pos'; 0%Z], (-0.25)%float, IN_PROGRESS), pos') |}.

(** A random source: every [np.random.random()] is [0.5], the raw draws of
    [random.choice] count up from a given value. *)
Definition draws_from (k : nat) : Entropy :=
  {| np_stream := fun _ => 0.5%float; py_stream := fun n => (k + n)%nat |}.

Definition start : Mem win_at_once := fresh_agent (tt : World win_at_once).

Definition corridor_start : Mem corridor := fresh_agent (0%Z : World corridor).

(** The rewards of an episode that takes six moves inside the corridor and
    then reaches the winning cell. *)
Definition corridor_rewards : list float :=
  [-0.25; -0.25; -0.25; -0.25; -0.25; -0.25; 10]%float.

Definition origin : Key := [0; 0]%Z.

(** Scenario B of the specification: UP stored as 0.0, then DOWN as 5.0. *)
Definition scenario_B : Mem win_at_once :=
  with_Q (<[(origin, MOVE_DOWN) := 5%float]> (<[(origin, MOVE_UP) := 0%float]> ∅)) start.

(** Scenario C: UP and DOWN both stored as 3.0, nothing else. *)
Definition scenario_C : Mem win_at_once :=
  with_Q (<[(origin, MOVE_DOWN) := 3%float]> (<[(origin, MOVE_UP) := 3%float]> ∅)) start.

(** A table in which the move LEFT from the origin has been ensured. *)
Definition left_ensured : Mem win_at_once :=
  with_Q (<[(origin, MOVE_LEFT) := 0%float]> ∅) start.

End Demo.

(** Tables for the queries and the report. *)
Module DemoTables.

(** The estimate of UP at the origin is NaN. *)
Definition nan_at_origin : Mem Demo.win_at_once :=
  with_Q (<[(Demo.origin, MOVE_UP) := nan]> ∅) Demo.start.

(** Two visited states: the origin, and the cell at column 2 of row 1. *)
Definition two_states : Mem Demo.win_at_once :=
  with_Q (<[([2; 1]%Z, MOVE_DOWN) := 5%float]> (<[(Demo.origin, MOVE_RIGHT) := 0%float]> ∅))
         Demo.start.

(** A state with one coordinate only. *)
Definition short_state : Mem Demo.win_at_once :=
  with_Q (<[([4]%Z, MOVE_UP) := 1%float]> ∅) Demo.start.



End DemoTables.

(** * Properties *)

(** ** The order of binary64 values, through [SFcompare] *)

Section FloatOrder.
Local Open Scope Z_scope.

(** [SFcompare] is the lexicographic comparison of the keys. *)
Lemma SFcompare_key v w :
  SFcompare v w =
  if SFis_nan v || SFis_nan w then None else Some (lex_cmp (SFkey v) (SFkey w)).
Proof.
  destruct v as [[]|[]| |[] mv ev], w as [[]|[]| |[] mw ew]; try reflexivity; simpl.
  rewrite Z.compare_opp, (Z.compare_antisym ev ew).
  destruct (ev ?= ew); reflexivity.
Qed.

Lemma lex_cmp_Lt a b : lex_cmp a b = Lt <-> lex_lt a b.
Proof.
  destruct a as [[a1 a2] a3], b as [[b1 b2] b3]; unfold lex_cmp, lex_lt; simpl.
  destruct (Z.compare_spec a1 b1), (Z.compare_spec a2 b2), (Z.compare_spec a3 b3);
    split; intros; try discriminate; try lia; try reflexivity.
Qed.

Lemma lex_cmp_Gt a b : lex_cmp a b = Gt <-> lex_lt b a.
Proof.
  destruct a as [[a1 a2] a3], b as [[b1 b2] b3]; unfold lex_cmp, lex_lt; simpl.
  destruct (Z.compare_spec a1 b1), (Z.compare_spec a2 b2), (Z.compare_spec a3 b3);
    split; intros; try discriminate; try lia; try reflexivity.
Qed.

Lemma lex_cmp_Eq a b : lex_cmp a b = Eq <-> a = b.
Proof.
  destruct a as [[a1 a2] a3], b as [[b1 b2] b3]; unfold lex_cmp; simpl.
  destruct (Z.compare_spec a1 b1), (Z.compare_spec a2 b2), (Z.compare_spec a3 b3);
    split; intros E; try discriminate; try reflexivity;
    try (injection E; intros; lia); subst; reflexivity.
Qed.

Lemma is_nan_spec v : is_nan v = SFis_nan (Prim2SF v).
Proof.
  unfold is_nan. rewrite FloatAxioms.eqb_spec. unfold SFeqb. rewrite SFcompare_key.
  destruct (Prim2SF v) as [| | |]; cbn [SFis_nan orb]; try reflexivity;
    match goal with
    | |- context [lex_cmp ?k ?k] =>
        replace (lex_cmp k k) with Eq by (symmetry; apply lex_cmp_Eq; reflexivity)
    end; reflexivity.
Qed.

Lemma ltb_iff v w :
  (v <? w)%float = true <->
  is_nan v = false /\ is_nan w = false /\ lex_lt (fkey v) (fkey w).
Proof.
  rewrite FloatAxioms.ltb_spec, !is_nan_spec. unfold SFltb, fkey. rewrite SFcompare_key.
  destruct (SFis_nan (Prim2SF v)), (SFis_nan (Prim2SF w)); simpl;
    try (split; [discriminate | intros (? & ? & ?); discriminate]).
  rewrite <- lex_cmp_Lt.
  destruct (lex_cmp _ _); split; intros; try discriminate; intuition (auto; discriminate).
Qed.

Lemma eqb_iff v w :
  (v =? w)%float = true <->
  is_nan v = false /\ is_nan w = false /\ fkey v = fkey w.
Proof.
  rewrite FloatAxioms.eqb_spec, !is_nan_spec. unfold SFeqb, fkey. rewrite SFcompare_key.
  destruct (SFis_nan (Prim2SF v)), (SFis_nan (Prim2SF w)); simpl;
    try (split; [discriminate | intros (? & ? & ?); discriminate]).
  rewrite <- lex_cmp_Eq.
  destruct (lex_cmp _ _); split; intros; try discriminate; intuition (auto; discriminate).
Qed.

Lemma leb_iff v w :
  (v <=? w)%float = true <->
  is_nan v = false /\ is_nan w = false /\ ~ lex_lt (fkey w) (fkey v).
Proof.
  rewrite FloatAxioms.leb_spec, !is_nan_spec. unfold SFleb, fkey. rewrite SFcompare_key.
  destruct (SFis_nan (Prim2SF v)), (SFis_nan (Prim2SF w)); simpl;
    try (split; [discriminate | intros (? & ? & ?); discriminate]).
  rewrite <- lex_cmp_Gt.
  destruct (lex_cmp _ _); split; intros; try discriminate; intuition (auto; discriminate).
Qed.

Lemma leb_refl v : is_nan v = false -> (v <=? v)%float = true.
Proof. intros Hv. apply leb_iff. repeat split; auto. unfold lex_lt. lia. Qed.

Lemma leb_trans u v w :
  (u <=? v)%float = true -> (v <=? w)%float = true -> (u <=? w)%float = true.
Proof.
  rewrite !leb_iff. unfold lex_lt. intros (Hu & Hv & H1) (_ & Hw & H2).
  repeat split; auto. lia.
Qed.

Lemma leb_total v w :
  is_nan v = false -> is_nan w = false ->
  (w <=? v)%float = false -> (v <=? w)%float = true.
Proof.
  intros Hv Hw H. apply leb_iff. repeat split; auto. intros Hlt.
  assert (Hwv : (w <=? v)%float = true); [|congruence].
  apply leb_iff. repeat split; auto. revert Hlt. unfold lex_lt. lia.
Qed.

Lemma ltb_leb v w : (v <? w)%float = true -> (v <=? w)%float = true.
Proof.
  rewrite ltb_iff, leb_iff. unfold lex_lt. intros (Hv & Hw & H).
  repeat split; auto. lia.
Qed.

Lemma leb_not_ltb v w : (w <=? v)%float = true -> (v <? w)%float = false.
Proof.
  intros H. apply not_true_is_false. intros Hlt.
  apply leb_iff in H as (_ & _ & H). apply ltb_iff in Hlt as (_ & _ & Hlt). auto.
Qed.

Lemma eqb_leb v w : (v =? w)%float = true -> (w <=? v)%float = true.
Proof.
  rewrite eqb_iff, leb_iff. intros (Hv & Hw & E). repeat split; auto.
  rewrite E. unfold lex_lt. lia.
Qed.

Lemma eqb_leb_l v w : (v =? w)%float = true -> (v <=? w)%float = true.
Proof.
  rewrite eqb_iff, leb_iff. intros (Hv & Hw & E). repeat split; auto.
  rewrite E. unfold lex_lt. lia.
Qed.

Lemma eqb_refl v : is_nan v = false -> (v =? v)%float = true.
Proof. intros Hv. apply eqb_iff. auto. Qed.

Lemma eqb_not_nan v w : (v =? w)%float = true -> is_nan v = false /\ is_nan w = false.
Proof. rewrite eqb_iff. tauto. Qed.

Lemma leb_not_nan v w : (v <=? w)%float = true -> is_nan v = false /\ is_nan w = false.
Proof. rewrite leb_iff. tauto. Qed.

End FloatOrder.

(** ** Rounding of the product with [decay_rate] *)

Section Rounding.
Local Open Scope Z_scope.

(** [digits2_pos p] is the number of binary digits of [p]. *)
Lemma digits2_pos_bounds p :
  2 ^ (Z.pos (digits2_pos p) - 1) <= Z.pos p < 2 ^ Z.pos (digits2_pos p).
Proof.
  induction p as [p IH|p IH|]; cbn [digits2_pos].
  1, 2: rewrite Pos2Z.inj_succ;
    replace (Z.succ (Z.pos (digits2_pos p)) - 1)
      with (Z.succ (Z.pos (digits2_pos p) - 1)) by lia;
    rewrite !Z.pow_succ_r by lia; lia.
  simpl. lia.
Qed.

Lemma digits2_pos_unique p d :
  2 ^ (d - 1) <= Z.pos p < 2 ^ d -> Z.pos (digits2_pos p) = d.
Proof.
  intros [Hlo Hhi]. pose proof (digits2_pos_bounds p) as [Hlo' Hhi'].
  assert (0 < d) by (destruct (Z_lt_le_dec 0 d); [done|]; 
    assert (2 ^ d <= 2 ^ 0) by (apply Z.pow_le_mono_r; lia); simpl in *; lia).
  destruct (Z.lt_trichotomy (Z.pos (digits2_pos p)) d) as [Hlt|[Heq|Hgt]]; [|done|].
  - assert (2 ^ Z.pos (digits2_pos p) <= 2 ^ (d - 1)) by (apply Z.pow_le_mono_r; lia). lia.
  - assert (2 ^ d <= 2 ^ (Z.pos (digits2_pos p) - 1)) by (apply Z.pow_le_mono_r; lia). lia.
Qed.

Lemma shr_m_shr_1 mrs : 0 <= shr_m mrs -> shr_m (shr_1 mrs) = shr_m mrs / 2.
Proof.
  destruct mrs as [m r s]; cbn [shr_m shr_1]. intros Hm.
  destruct m as [|[p|p|]|p]; cbn [shr_m]; try lia.
  all: Z.div_mod_to_equations; lia.
Qed.

(** Shifting [n] times divides the mantissa by [2 ^ n]. *)
Lemma shr_m_iter_pos n : forall mrs,
  0 <= shr_m mrs -> shr_m (SpecFloat.iter_pos shr_1 n mrs) = shr_m mrs / 2 ^ Z.pos n.
Proof.
  induction n as [n IH|n IH|]; intros mrs Hm; cbn [SpecFloat.iter_pos].
  - assert (0 <= shr_m (shr_1 mrs)) by (rewrite shr_m_shr_1 by done; apply Z.div_pos; lia).
    assert (0 < 2 ^ Z.pos n) by (apply Z.pow_pos_nonneg; lia).
    rewrite IH; [rewrite IH by done|rewrite IH by done; apply Z.div_pos; lia].
    rewrite shr_m_shr_1 by done.
    rewrite !Z.div_div by lia.
    f_equal.
    assert (E : Z.pos n~1 = 1 + Z.pos n + Z.pos n) by lia.
    rewrite E, !Z.pow_add_r by lia. change (2 ^ 1) with 2. lia.
  - assert (0 < 2 ^ Z.pos n) by (apply Z.pow_pos_nonneg; lia).
    rewrite IH; [rewrite IH by done|rewrite IH by done; apply Z.div_pos; lia].
    rewrite !Z.div_div by lia.
    f_equal.
    assert (E : Z.pos n~0 = Z.pos n + Z.pos n) by lia.
    rewrite E, !Z.pow_add_r by lia. lia.
  - rewrite shr_m_shr_1 by done. reflexivity.
Qed.

(** Rounding to nearest keeps the truncated mantissa or adds one. *)
Lemma round_nearest_even_bounds m l :
  m <= round_nearest_even m l <= m + 1.
Proof.
  destruct l as [|[]]; cbn [round_nearest_even]; try lia.
  destruct (Z.even m); lia.
Qed.

Lemma shr_fexp_shift m e l p :
  fexp prec emax (Zdigits2 m + e) - e = Z.pos p ->
  shr_fexp prec emax m e l =
  (SpecFloat.iter_pos shr_1 p (shr_record_of_loc m l), e + Z.pos p).
Proof. intros H. unfold shr_fexp. rewrite H. reflexivity. Qed.

Lemma shr_fexp_noshift m e l :
  fexp prec emax (Zdigits2 m + e) - e = 0 ->
  shr_fexp prec emax m e l = (shr_record_of_loc m l, e).
Proof. intros H. unfold shr_fexp. rewrite H. reflexivity. Qed.

(** The product of a positive normal number of exponent [e >= -59] with
    [decay_rate], as [SFmul] rounds it, does not exceed the number: the exact
    product is below it, and the number is itself representable. The product
    of the mantissas has 105 or 106 digits, which fixes the shift. *)
Lemma SFmul_decay m e :
  Z.pos (digits2_pos m) = 53 -> -59 <= e <= 971 ->
  exists m' e',
    SFmul prec emax (S754_finite false m e) (S754_finite false decay_mantissa (-53))
    = S754_finite false m' e'
    /\ (e' < e \/ (e' = e /\ Z.pos m' <= Z.pos m)).
Proof.
  intros Hd He.
  pose proof (digits2_pos_bounds m) as Hm. rewrite Hd in Hm.
  change (2 ^ (53 - 1)) with 4503599627370496 in Hm.
  change (2 ^ 53) with 9007199254740992 in Hm.
  cbn [SFmul xorb]. unfold binary_round_aux.
  set (P := (m * decay_mantissa)%positive).
  assert (HP : Z.pos P = Z.pos m * 8984681256604140) by (unfold P, decay_mantissa; lia).
  destruct (Z_lt_le_dec (Z.pos P) (2 ^ 105)) as [Hlt|Hge].
  - (* 105 digits: shift by 52 *)
    assert (HdP : Z.pos (digits2_pos P) = 105).
    { apply digits2_pos_unique. change (2 ^ (105 - 1)) with 20282409603651670423947251286016.
      change (2 ^ 105) with 40564819207303340847894502572032 in *. lia. }
    rewrite (shr_fexp_shift _ _ _ 52)
      by (cbn [Zdigits2]; rewrite HdP; unfold fexp, emin, prec, emax; lia).
    set (mrs1 := SpecFloat.iter_pos shr_1 52 (shr_record_of_loc (Z.pos P) loc_Exact)).
    assert (Hm1 : shr_m mrs1 = Z.pos P / 2 ^ 52)
      by (unfold mrs1; rewrite shr_m_iter_pos; cbn [shr_record_of_loc shr_m]; [reflexivity|lia]).
    pose proof (round_nearest_even_bounds (shr_m mrs1) (loc_of_shr_record mrs1)) as Hr.
    set (m2 := round_nearest_even (shr_m mrs1) (loc_of_shr_record mrs1)) in *.
    rewrite Hm1 in Hr.
    change (2 ^ 52) with 4503599627370496 in Hr.
    change (2 ^ 105) with 40564819207303340847894502572032 in *.
    assert (Hm2 : 4503599627370496 <= m2 <= 9007199254740992)
      by (Z.div_mod_to_equations; lia).
    destruct m2 as [|p2|p2] eqn:Ep2; try lia.
    destruct (Z_lt_le_dec (Z.pos p2) 9007199254740992) as [Hp2|Hp2].
    + assert (Hd2 : Z.pos (digits2_pos p2) = 53)
        by (apply digits2_pos_unique; change (2 ^ (53 - 1)) with 4503599627370496;
            change (2 ^ 53) with 9007199254740992; lia).
      rewrite shr_fexp_noshift
        by (cbn [Zdigits2]; rewrite Hd2; unfold fexp, emin, prec, emax; lia).
      cbn [shr_record_of_loc shr_m].
      replace (e + -53 + 52 <=? emax - prec) with true
        by (symmetry; apply Z.leb_le; unfold emax, prec; lia).
      eexists _, _; split; [reflexivity|lia].
    + assert (Ep : p2 = 9007199254740992%positive) by lia. subst p2.
      rewrite (shr_fexp_shift _ _ _ 1)
        by (cbn [Zdigits2]; unfold fexp, emin, prec, emax; simpl; lia).
      cbn [shr_record_of_loc SpecFloat.iter_pos shr_1 shr_m].
      replace (e + -53 + 52 + 1 <=? emax - prec) with true
        by (symmetry; apply Z.leb_le; unfold emax, prec; lia).
      eexists _, _; split; [reflexivity|lia].
  - (* 106 digits: shift by 53 *)
    assert (HdP : Z.pos (digits2_pos P) = 106).
    { apply digits2_pos_unique. change (2 ^ (106 - 1)) with 40564819207303340847894502572032.
      change (2 ^ 105) with 40564819207303340847894502572032 in *.
      change (2 ^ 106) with 81129638414606681695789005144064. lia. }
    rewrite (shr_fexp_shift _ _ _ 53)
      by (cbn [Zdigits2]; rewrite HdP; unfold fexp, emin, prec, emax; lia).
    set (mrs1 := SpecFloat.iter_pos shr_1 53 (shr_record_of_loc (Z.pos P) loc_Exact)).
    assert (Hm1 : shr_m mrs1 = Z.pos P / 2 ^ 53)
      by (unfold mrs1; rewrite shr_m_iter_pos; cbn [shr_record_of_loc shr_m]; [reflexivity|lia]).
    pose proof (round_nearest_even_bounds (shr_m mrs1) (loc_of_shr_record mrs1)) as Hr.
    set (m2 := round_nearest_even (shr_m mrs1) (loc_of_shr_record mrs1)) in *.
    rewrite Hm1 in Hr.
    change (2 ^ 53) with 9007199254740992 in Hr.
    change (2 ^ 105) with 40564819207303340847894502572032 in *.
    assert (Hm2 : 4503599627370496 <= m2 <= Z.pos m)
      by (Z.div_mod_to_equations; lia).
    destruct m2 as [|p2|p2] eqn:Ep2; try lia.
    assert (Hd2 : Z.pos (digits2_pos p2) = 53)
      by (apply digits2_pos_unique; change (2 ^ (53 - 1)) with 4503599627370496;
          change (2 ^ 53) with 9007199254740992; lia).
    rewrite shr_fexp_noshift
      by (cbn [Zdigits2]; rewrite Hd2; unfold fexp, emin, prec, emax; lia).
    cbn [shr_record_of_loc shr_m].
    replace (e + -53 + 53 <=? emax - prec) with true
      by (symmetry; apply Z.leb_le; unfold emax, prec; lia).
    eexists _, _; split; [reflexivity|lia].
Qed.

Lemma Prim2SF_decay_rate : Prim2SF decay_rate = S754_finite false decay_mantissa (-53).
Proof. vm_compute. reflexivity. Qed.

Lemma Prim2SF_min_exploration_rate :
  Prim2SF min_exploration_rate = S754_finite false 5764607523034235 (-59).
Proof. vm_compute. reflexivity. Qed.

(** On binary64 values: from [0.01] upwards (infinity included), multiplying
    by [0.9975] does not increase the value. *)
Lemma mul_decay_rate_le x :
  (min_exploration_rate <=? x)%float = true -> (x * decay_rate <=? x)%float = true.
Proof.
  rewrite !FloatAxioms.leb_spec, mul_spec, Prim2SF_decay_rate, Prim2SF_min_exploration_rate.
  pose proof (Prim2SF_valid x) as Hv.
  destruct (Prim2SF x) as [s|[]| |[] m e]; try discriminate; try reflexivity.
  unfold SFleb at 1. cbn [SFcompare]. intros Hle.
  assert (He : -59 <= e) by (destruct (Z.compare_spec (-59) e); (lia || discriminate)).
  cbn [SpecFloat.valid_binary] in Hv. unfold bounded, canonical_mantissa in Hv.
  apply andb_true_iff in Hv as [Hc Hb]. apply Z.eqb_eq in Hc. apply Z.leb_le in Hb.
  unfold fexp, SpecFloat.emin, emax, prec in Hc, Hb.
  unfold SF64mul.
  destruct (SFmul_decay m e) as (m' & e' & -> & Hr); [lia|lia|].
  unfold SFleb. cbn [SFcompare].
  destruct Hr as [Hlt|[-> Hm]].
  - rewrite (proj2 (Z.compare_lt_iff e' e)) by lia. reflexivity.
  - rewrite Z.compare_refl.
    change (Pos.compare_cont Eq m' m) with (m' ?= m)%positive.
    destruct (Pos.compare_spec m' m); (reflexivity || lia).
Qed.

Lemma min_exploration_rate_not_nan : is_nan min_exploration_rate = false.
Proof. reflexivity. Qed.

(** The decayed rate is at least the floor, whatever the rate was. *)
Lemma decay_ge_min e : (min_exploration_rate <=? decay e)%float = true.
Proof.
  unfold decay, py_max.
  destruct (min_exploration_rate <? e * decay_rate)%float eqn:E.
  - apply ltb_leb, E.
  - reflexivity.
Qed.

(** From the floor upwards the decay does not increase the rate. *)
Lemma decay_le e :
  (min_exploration_rate <=? e)%float = true -> (decay e <=? e)%float = true.
Proof.
  intros He. unfold decay, py_max.
  destruct (min_exploration_rate <? e * decay_rate)%float.
  - apply mul_decay_rate_le, He.
  - exact He.
Qed.

Lemma iter_decay_ge_min k e :
  (min_exploration_rate <=? Nat.iter (S k) decay e)%float = true.
Proof. cbn [Nat.iter nat_rect]. apply decay_ge_min. Qed.

Lemma iter_decay_le j n e :
  (min_exploration_rate <=? Nat.iter j decay e)%float = true ->
  (Nat.iter (n + j) decay e <=? Nat.iter j decay e)%float = true
  /\ (min_exploration_rate <=? Nat.iter (n + j) decay e)%float = true.
Proof.
  intros Hj. induction n as [|n [IH1 IH2]].
  - split; [|exact Hj]. apply leb_refl. apply leb_not_nan in Hj. tauto.
  - change (Nat.iter (S n + j) decay e) with (decay (Nat.iter (n + j) decay e)).
    split; [|apply decay_ge_min].
    eapply leb_trans; [apply decay_le, IH2 | exact IH1].
Qed.

End Rounding.

(** ** numpy helpers *)

Lemma nonzero_from_spec mask : forall k i,
  i ∈ nonzero_from k mask <-> (k <= i)%nat /\ mask !! (i - k)%nat = Some true.
Proof.
  induction mask as [|b rest IH]; intros k i; cbn [nonzero_from].
  - rewrite lookup_nil. split; [intros H; inversion H | intros [_ H]; discriminate].
  - assert (Hrest : i ∈ nonzero_from (S k) rest <->
                    (k < i)%nat /\ (b :: rest) !! (i - k)%nat = Some true).
    { rewrite IH. split.
      - intros [Hle Hl]. split; [lia|].
        replace (i - k)%nat with (S (i - S k)) by lia. exact Hl.
      - intros [Hlt Hl]. split; [lia|].
        replace (i - k)%nat with (S (i - S k)) in Hl by lia. exact Hl. }
    destruct b.
    + rewrite elem_of_cons, Hrest. split.
      * intros [->|[Hlt Hl]]; [|split; [lia|exact Hl]].
        split; [lia|]. rewrite Nat.sub_diag. reflexivity.
      * intros [Hle Hl]. destruct (decide (i = k)) as [->|Hne]; [left; reflexivity|].
        right. split; [lia|exact Hl].
    + rewrite Hrest. split.
      * intros [Hlt Hl]. split; [lia|exact Hl].
      * intros [Hle Hl]. destruct (decide (i = k)) as [->|Hne].
        -- rewrite Nat.sub_diag in Hl. discriminate.
        -- split; [lia|exact Hl].
Qed.

Lemma np_nonzero_spec mask i : i ∈ np_nonzero mask <-> mask !! i = Some true.
Proof.
  unfold np_nonzero. rewrite nonzero_from_spec, Nat.sub_0_r.
  split; [tauto | intros H; split; [lia | exact H]].
Qed.

Lemma np_maximum_cases a b : np_maximum a b = a \/ np_maximum a b = b.
Proof. unfold np_maximum. destruct (_ || _); auto. Qed.

Lemma np_maximum_upper a b :
  is_nan (np_maximum a b) = false ->
  (a <=? np_maximum a b)%float = true /\ (b <=? np_maximum a b)%float = true.
Proof.
  unfold np_maximum.
  destruct (b <=? a)%float eqn:Hba; cbn [orb].
  - intros Ha. split; [apply leb_refl, Ha | exact Hba].
  - destruct (is_nan a) eqn:Ha; [congruence|]. intros Hb.
    split; [apply leb_total; assumption | apply leb_refl, Hb].
Qed.

Lemma foldl_np_maximum_in rest : forall a,
  foldl np_maximum a rest ∈ a :: rest.
Proof.
  induction rest as [|b rest IH]; intros a; cbn [foldl].
  - apply list_elem_of_here.
  - specialize (IH (np_maximum a b)).
    apply elem_of_cons in IH as [->|IH].
    + destruct (np_maximum_cases a b) as [->| ->];
        [apply list_elem_of_here | apply list_elem_of_further, list_elem_of_here].
    + do 2 apply list_elem_of_further. exact IH.
Qed.

Lemma foldl_np_maximum_upper rest : forall a,
  is_nan (foldl np_maximum a rest) = false ->
  forall v, v ∈ a :: rest -> (v <=? foldl np_maximum a rest)%float = true.
Proof.
  induction rest as [|b rest IH]; intros a Hm v Hv; cbn [foldl] in *.
  - apply list_elem_of_singleton in Hv as ->. apply leb_refl, Hm.
  - pose proof (IH _ Hm (np_maximum a b) (list_elem_of_here _ _)) as Hab.
    destruct (np_maximum_upper a b) as [Ha Hb]; [apply leb_not_nan in Hab; tauto|].
    apply elem_of_cons in Hv as [->|Hv]; [eapply leb_trans; eassumption|].
    apply elem_of_cons in Hv as [->|Hv]; [eapply leb_trans; eassumption|].
    apply (IH _ Hm). apply list_elem_of_further, Hv.
Qed.

Lemma np_max_in arr m : np_max arr = Some m -> m ∈ arr.
Proof.
  destruct arr as [|a rest]; [discriminate|]. intros [= <-]. apply foldl_np_maximum_in.
Qed.

(** A maximum that is not NaN bounds every element of the array. *)
Lemma np_max_upper arr m :
  np_max arr = Some m -> is_nan m = false ->
  forall v, v ∈ arr -> (v <=? m)%float = true.
Proof.
  destruct arr as [|a rest]; [discriminate|]. intros [= <-]. apply foldl_np_maximum_upper.
Qed.

Lemma np_max_is_Some arr : arr <> [] -> is_Some (np_max arr).
Proof. destruct arr; [congruence|]. intros _. eexists. reflexivity. Qed.

(** ** The greedy policy *)

Section Greedy.
Context (env : Environment).
Implicit Types (rnd : Entropy).
Implicit Types (table : gmap (Key * Action) float) (mem : Mem env).

Lemma q_loop_fold table state acts : forall done,
  fst (foldl (q_loop table state)
         (done ++ replicate (length acts) 0%float, length done) acts)
  = done ++ map (estimate table state) acts.
Proof.
  induction acts as [|a acts IH]; intros done; cbn [foldl length replicate map].
  - reflexivity.
  - cbn [q_loop].
    assert (E : (match table !! (state, a) with
                 | Some v =>
                     <[length done := v]>
                       (done ++ 0%float :: replicate (length acts) 0%float)
                 | None => done ++ 0%float :: replicate (length acts) 0%float
                 end) = (done ++ [estimate table state a]) ++ replicate (length acts) 0%float).
    { unfold estimate. rewrite <- app_assoc. cbn [app].
      destruct (table !! (state, a)) as [v|]; cbn [default]; [|reflexivity].
      rewrite <- (Nat.add_0_r (length done)), insert_app_r. reflexivity. }
    rewrite E.
    replace (S (length done)) with (length (done ++ [estimate table state a]))
      by (rewrite length_app; cbn [length]; lia).
    rewrite IH, <- app_assoc. reflexivity.
Qed.

(** [q] returns the estimates in the order of the action enumeration. *)
Lemma q_of_map table state :
  q_of env table state = map (estimate table (as_key state)) (actions env).
Proof. unfold q_of. apply (q_loop_fold table (as_key state) (actions env) []). Qed.

(** [predict] with the monad unfolded. *)
Lemma predict_unfold rnd state mem :
  predict env rnd state mem =
  match np_max (q_of env (Q mem) state) with
  | None => Raised ValueError
  | Some m =>
      let idxs := np_nonzero (map (fun v => (v =? m)%float) (q_of env (Q mem) state)) in
      match idxs !! (py_stream rnd (py_used mem) `mod` length idxs)%nat with
      | None => Raised IndexError
      | Some i =>
          match actions env !! i with
          | Some a => Returned (a, after_choice mem)
          | None => Raised IndexError
          end
      end
  end.
Proof.
  unfold predict, q, argmaxes, get_Q, random_choice, getitem, mbind, M_bind, mret, M_ret, raise.
  destruct (np_max _) as [m|]; [|reflexivity]. cbn zeta.
  destruct (_ !! _) as [i|]; [|reflexivity].
  destruct (actions env !! i); reflexivity.
Qed.

Lemma argmax_index table state m i :
  i ∈ np_nonzero (map (fun v => (v =? m)%float) (q_of env table state)) <->
  exists a, actions env !! i = Some a /\ (estimate table (as_key state) a =? m)%float = true.
Proof.
  rewrite np_nonzero_spec, q_of_map, map_map, list_lookup_fmap.
  destruct (actions env !! i) as [a|]; cbn [fmap option_fmap option_map].
  - split; [intros [= H]; eauto | intros (a' & [= <-] & H); rewrite H; reflexivity].
  - split; [discriminate | intros (a' & [=] & _)].
Qed.

(** What [predict] returns is one of the actions, at an index where the
    estimate equals the maximum. *)
Lemma predict_sound rnd state mem a mem' :
  predict env rnd state mem = Returned (a, mem') ->
  mem' = after_choice mem /\
  exists m, np_max (q_of env (Q mem) state) = Some m /\ a ∈ actions env /\
            (estimate (Q mem) (as_key state) a =? m)%float = true.
Proof.
  rewrite predict_unfold.
  destruct (np_max _) as [m|] eqn:Hm; [|discriminate]. cbn zeta.
  destruct (_ !! _) as [i|] eqn:Hi; [|discriminate].
  apply list_elem_of_lookup_2 in Hi. apply argmax_index in Hi as (a' & Ha' & Heq).
  rewrite Ha'. intros [= <- <-]. split; [reflexivity|].
  exists m. split; [reflexivity|]. split; [|exact Heq].
  eapply list_elem_of_lookup_2, Ha'.
Qed.

Lemma estimate_in_q table state a :
  a ∈ actions env -> estimate table (as_key state) a ∈ q_of env table state.
Proof. intros Ha. rewrite q_of_map. apply list_elem_of_fmap. eauto. Qed.

(** The maximum bounds every estimate of the state, when it is not NaN. *)
Lemma np_max_q_upper table state m b :
  np_max (q_of env table state) = Some m -> is_nan m = false ->
  b ∈ actions env -> (estimate table (as_key state) b <=? m)%float = true.
Proof. intros Hm Hn Hb. eapply np_max_upper; eauto using estimate_in_q. Qed.

(** A maximal action is returned for a suitable draw. *)
Lemma predict_reaches state mem a m :
  np_max (q_of env (Q mem) state) = Some m -> a ∈ actions env ->
  (estimate (Q mem) (as_key state) a =? m)%float = true ->
  exists k, forall rnd, py_stream rnd (py_used mem) = k ->
            predict env rnd state mem = Returned (a, after_choice mem).
Proof.
  intros Hm Ha Heq.
  apply list_elem_of_lookup_1 in Ha as [i Hi].
  assert (Hin : i ∈ np_nonzero (map (fun v => (v =? m)%float) (q_of env (Q mem) state)))
    by (apply argmax_index; eauto).
  apply list_elem_of_lookup_1 in Hin as [p Hp].
  exists p. intros rnd Hk. rewrite predict_unfold, Hm. cbn zeta. rewrite Hk.
  rewrite Nat.mod_small by (eapply lookup_lt_Some, Hp).
  rewrite Hp, Hi. reflexivity.
Qed.

(** [predict] returns when no estimate of the state is NaN and there is at
    least one action. *)
Lemma predict_returns rnd state mem :
  actions env <> [] ->
  (forall a, a ∈ actions env -> is_nan (estimate (Q mem) (as_key state) a) = false) ->
  exists a, predict env rnd state mem = Returned (a, after_choice mem).
Proof.
  intros Hne Hnan.
  destruct (np_max_is_Some (q_of env (Q mem) state)) as [m Hm].
  { rewrite q_of_map. destruct (actions env); [congruence|discriminate]. }
  pose proof (np_max_in _ _ Hm) as Hin. rewrite q_of_map in Hin.
  apply list_elem_of_fmap in Hin as (a & -> & Ha).
  set (idxs := np_nonzero (map (fun v => (v =? estimate (Q mem) (as_key state) a)%float)
                             (q_of env (Q mem) state))).
  assert (Hidx : exists i, i ∈ idxs).
  { apply list_elem_of_lookup_1 in Ha as [i Hi]. exists i. apply argmax_index.
    exists a. split; [exact Hi|]. apply eqb_refl, Hnan.
    eapply list_elem_of_lookup_2, Hi. }
  assert (Hlen : (0 < length idxs)%nat).
  { destruct Hidx as [i Hi]. destruct idxs; [inversion Hi | cbn; lia]. }
  destruct (lookup_lt_is_Some_2 idxs (py_stream rnd (py_used mem) `mod` length idxs)%nat)
    as [i Hi]; [apply Nat.mod_upper_bound; lia|].
  pose proof Hi as Hi'. apply list_elem_of_lookup_2, argmax_index in Hi' as (a' & Ha' & _).
  exists a'. rewrite predict_unfold, Hm. cbn zeta. fold idxs. rewrite Hi, Ha'. reflexivity.
Qed.

End Greedy.

(** ** The monad and one training step *)

Section Monad.
Context {env : Environment}.

Lemma bind_unfold {A B} (m : M env A) (f : A -> M env B) mem :
  (m ≫= f) mem =
  match m mem with
  | Returned (a, mem') => f a mem'
  | Raised e => Raised e
  | OutOfFuel => OutOfFuel
  end.
Proof. reflexivity. Qed.

Lemma bind_Returned {A B} (m : M env A) (f : A -> M env B) mem b mem' :
  (m ≫= f) mem = Returned (b, mem') ->
  exists a mem1, m mem = Returned (a, mem1) /\ f a mem1 = Returned (b, mem').
Proof.
  rewrite bind_unfold. destruct (m mem) as [[a mem1]| |]; try discriminate. eauto.
Qed.

Lemma bind_Returned_intro {A B} (m : M env A) (f : A -> M env B) mem a mem1 :
  m mem = Returned (a, mem1) -> (m ≫= f) mem = f a mem1.
Proof. intros H. rewrite bind_unfold, H. reflexivity. Qed.

End Monad.

Lemma nan_free_empty : nan_free ∅.
Proof. intros k v H. rewrite lookup_empty in H. discriminate. Qed.

Lemma nan_free_insert table k v :
  is_nan v = false -> nan_free table -> nan_free (<[k := v]> table).
Proof.
  intros Hv Ht k' v'. rewrite lookup_insert. case_decide; [intros [= <-]; exact Hv | apply Ht].
Qed.

Lemma nan_free_estimate table state a : nan_free table -> is_nan (estimate table state a) = false.
Proof.
  intros Ht. unfold estimate.
  destruct (table !! (state, a)) eqn:E; cbn [default]; [eapply Ht, E | reflexivity].
Qed.

Section Training.
Context (env : Environment) (rnd : Entropy).
Implicit Types (mem : Mem env) (table : gmap (Key * Action) float).

Lemma random_choice_returns {A} (seq : list A) mem :
  seq <> [] ->
  exists v, v ∈ seq /\ random_choice env rnd seq mem = Returned (v, after_choice mem).
Proof.
  intros Hne. unfold random_choice.
  destruct (lookup_lt_is_Some_2 seq (py_stream rnd (py_used mem) `mod` length seq)%nat) as [v Hv].
  { apply Nat.mod_upper_bound. destruct seq; [congruence | cbn; lia]. }
  exists v. rewrite Hv. split; [eapply list_elem_of_lookup_2, Hv | reflexivity].
Qed.

Lemma random_choice_inv {A} (seq : list A) mem v mem' :
  random_choice env rnd seq mem = Returned (v, mem') -> v ∈ seq /\ mem' = after_choice mem.
Proof.
  unfold random_choice. destruct (_ !! _) eqn:E; [|discriminate].
  intros [= <- <-]. split; [eapply list_elem_of_lookup_2, E | reflexivity].
Qed.

Lemma choose_action_inv e state mem a mem' :
  choose_action env rnd e state mem = Returned (a, mem') ->
  a ∈ actions env /\ mem' = after_choice (after_random mem).
Proof.
  unfold choose_action. rewrite bind_unfold. unfold np_random_random at 1.
  fold (after_random mem). destruct (_ <? _)%float.
  - apply random_choice_inv.
  - intros H. apply predict_sound in H as (-> & m & _ & Ha & _). auto.
Qed.

Lemma choose_action_returns e state mem :
  actions env <> [] -> nan_free (Q mem) ->
  exists a, a ∈ actions env /\
    choose_action env rnd e state mem = Returned (a, after_choice (after_random mem)).
Proof.
  intros Hne Hnan. unfold choose_action. rewrite bind_unfold. unfold np_random_random at 1.
  fold (after_random mem). destruct (_ <? _)%float.
  - apply random_choice_returns, Hne.
  - destruct (predict_returns env rnd (Hashable state) (after_random mem) Hne) as [a Ha].
    { intros a _. apply nan_free_estimate, Hnan. }
    exists a. split; [|exact Ha].
    apply predict_sound in Ha as (_ & m & _ & Hin & _). exact Hin.
Qed.

Lemma ensure_unfold k mem :
  ensure env k mem = Returned (tt, with_Q (ensured (Q mem) k) mem).
Proof.
  unfold ensure, ensured, with_Q. rewrite bind_unfold. unfold get_Q at 1.
  destruct (Q mem !! k); [|reflexivity]. destruct mem; reflexivity.
Qed.

Lemma estimate_ensured table k state a :
  estimate (ensured table k) state a = estimate table state a.
Proof.
  unfold ensured, estimate. destruct (table !! k) eqn:E; [reflexivity|].
  rewrite lookup_insert. case_decide as Hk; [|reflexivity].
  subst k. rewrite E. reflexivity.
Qed.

Lemma lookup_ensured_same table k : ensured table k !! k = Some (estimate table k.1 k.2).
Proof.
  unfold ensured, estimate. destruct k as [s a]. cbn [fst snd].
  destruct (table !! (s, a)) eqn:E; [rewrite E; reflexivity|].
  rewrite lookup_insert_eq. reflexivity.
Qed.

Lemma lookup_ensured_Some table k k' v :
  ensured table k !! k' = Some v -> v = estimate table k'.1 k'.2.
Proof.
  intros H. rewrite <- (estimate_ensured table k). unfold estimate.
  destruct k'. cbn [fst snd]. rewrite H. reflexivity.
Qed.

Lemma nan_free_ensured table k : nan_free table -> nan_free (ensured table k).
Proof.
  intros H. unfold ensured. destruct (table !! k); [exact H|].
  apply nan_free_insert; [reflexivity | exact H].
Qed.

Lemma sarsa_update_inv d lr state a r ns na mem u mem' :
  sarsa_update env d lr state a r ns na mem = Returned (u, mem') ->
  exists old nxt, Q mem !! (state, a) = Some old /\ Q mem !! (ns, na) = Some nxt /\
    mem' = with_Q (<[(state, a) := (old + lr * (r + d * nxt - old))%float]> (Q mem)) mem.
Proof.
  unfold sarsa_update. rewrite !bind_unfold. unfold Q_getitem at 1.
  destruct (Q mem !! (state, a)) as [old|] eqn:Ho; [|discriminate].
  rewrite bind_unfold. unfold Q_getitem at 1.
  destruct (Q mem !! (ns, na)) as [nxt|] eqn:Hn; [|discriminate].
  rewrite bind_unfold. unfold Q_getitem at 1. rewrite Ho.
  unfold set_Q. intros [= <-]. eauto.
Qed.

Lemma sarsa_update_returns d lr state a r ns na mem old nxt :
  Q mem !! (state, a) = Some old -> Q mem !! (ns, na) = Some nxt ->
  sarsa_update env d lr state a r ns na mem =
  Returned (tt, with_Q (<[(state, a) := (old + lr * (r + d * nxt - old))%float]> (Q mem)) mem).
Proof.
  intros Ho Hn. unfold sarsa_update. rewrite !bind_unfold. unfold Q_getitem at 1.
  rewrite Ho, bind_unfold. unfold Q_getitem at 1. rewrite Hn, bind_unfold.
  unfold Q_getitem at 1. rewrite Ho. reflexivity.
Qed.

(** [td_step] with the monad unfolded: the move, the choice of the next
    action, and the assignment, which needs [(state, action)] to be a key once
    [(next_state, next_action)] has been ensured. *)
Lemma td_step_unfold d e lr state a c mem :
  td_step env rnd d e lr state a c mem =
  let '((ns, r, st), w') := _aplica env a (world mem) in
  match choose_action env rnd e ns (after_aplica w' mem) with
  | Returned (na, mem2) =>
      match ensured (Q mem2) (ns, na) !! (state, a) with
      | Some _ =>
          Returned ((ns, na, (c + r)%float, st),
                    with_Q (<[(state, a) := td_target d lr (Q mem2) state a r ns na]>
                              (ensured (Q mem2) (ns, na))) mem2)
      | None => Raised KeyError
      end
  | Raised err => Raised err
  | OutOfFuel => OutOfFuel
  end.
Proof.
  unfold td_step. rewrite bind_unfold. unfold environment_aplica at 1.
  destruct (_aplica env a (world mem)) as [[[ns r] st] w'].
  fold (after_aplica w' mem). rewrite bind_unfold.
  destruct (choose_action env rnd e ns (after_aplica w' mem)) as [[na mem2]| |];
    try reflexivity.
  rewrite bind_unfold, ensure_unfold, bind_unfold.
  unfold sarsa_update. rewrite bind_unfold. unfold Q_getitem at 1. cbn [Q with_Q].
  destruct (ensured (Q mem2) (ns, na) !! (state, a)) as [old|] eqn:Ho; [|reflexivity].
  rewrite bind_unfold. unfold Q_getitem at 1. cbn [Q with_Q].
  rewrite lookup_ensured_same. cbn [fst snd].
  rewrite bind_unfold. unfold Q_getitem at 1. cbn [Q with_Q]. rewrite Ho.
  apply lookup_ensured_Some in Ho. cbn [fst snd] in Ho. subst old.
  reflexivity.
Qed.

Lemma td_step_inv d e lr state a c mem ns na c' st mem' :
  td_step env rnd d e lr state a c mem = Returned ((ns, na, c', st), mem') ->
  exists r w',
    _aplica env a (world mem) = ((ns, r, st), w') /\
    c' = (c + r)%float /\ na ∈ actions env /\
    mem' = with_Q (<[(state, a) := td_target d lr (Q mem) state a r ns na]>
                     (ensured (Q mem) (ns, na)))
                  (after_choice (after_random (after_aplica w' mem))).
Proof.
  rewrite td_step_unfold.
  destruct (_aplica env a (world mem)) as [[[ns0 r] st0] w'].
  destruct (choose_action env rnd e ns0 (after_aplica w' mem)) as [[na0 mem2]| |] eqn:Hc;
    try discriminate.
  apply choose_action_inv in Hc as [Hna ->].
  cbn [Q after_choice after_random after_aplica].
  destruct (ensured (Q mem) (ns0, na0) !! (state, a)); [|discriminate].
  intros [= <- <- <- <- <-]. exists r, w'. auto.
Qed.

Lemma td_step_returns d e lr state a c mem ns r st w' na :
  _aplica env a (world mem) = ((ns, r, st), w') ->
  choose_action env rnd e ns (after_aplica w' mem)
    = Returned (na, after_choice (after_random (after_aplica w' mem))) ->
  is_Some (Q mem !! (state, a)) ->
  td_step env rnd d e lr state a c mem =
  Returned ((ns, na, (c + r)%float, st),
            with_Q (<[(state, a) := td_target d lr (Q mem) state a r ns na]>
                      (ensured (Q mem) (ns, na)))
                   (after_choice (after_random (after_aplica w' mem)))).
Proof.
  intros Hstep Hc [old Ho]. rewrite td_step_unfold, Hstep, Hc.
  cbn [Q after_choice after_random after_aplica].
  assert (Ho' : is_Some (ensured (Q mem) (ns, na) !! (state, a))).
  { unfold ensured. destruct (Q mem !! (ns, na)) eqn:E; [eauto|].
    rewrite lookup_insert_ne; [eauto|]. intros Heq. rewrite Heq in E. congruence. }
  destruct Ho' as [v ->]. reflexivity.
Qed.

(** The accumulator only flows through a step: the reward of the move is
    added to whatever value it holds. *)
Lemma td_step_accumulator d e lr state a c mem ns na c' st mem' :
  td_step env rnd d e lr state a c mem = Returned ((ns, na, c', st), mem') ->
  c' = (c + reward_of env a mem)%float /\
  forall c0,
    td_step env rnd d e lr state a c0 mem
    = Returned ((ns, na, (c0 + reward_of env a mem)%float, st), mem').
Proof.
  rewrite td_step_unfold. unfold reward_of.
  destruct (_aplica env a (world mem)) as [[[ns0 r] st0] w'] eqn:Hstep.
  destruct (choose_action env rnd e ns0 (after_aplica w' mem)) as [[na0 mem2]| |] eqn:Hc;
    try discriminate.
  destruct (ensured (Q mem2) (ns0, na0) !! (state, a)) eqn:Ho; [|discriminate].
  intros [= <- <- <- <- <-]. split; [reflexivity|]. intros c0.
  rewrite td_step_unfold, Hstep, Hc, Ho. reflexivity.
Qed.

End Training.

(** ** Episodes *)

Section Episodes.
Context (env : Environment) (rnd : Entropy).
Implicit Types (mem : Mem env) (l : Locals).

Lemma episode_body_inv fuel d lr l n mem l' mem' :
  episode_body env rnd fuel d lr l n mem = Returned (l', mem') ->
  exists c pos, l' = locals_after l c pos n.
Proof.
  unfold episode_body. intros H.
  apply bind_Returned in H as (state & mem1 & _ & H).
  apply bind_Returned in H as (action & mem2 & _ & H).
  apply bind_Returned in H as (u & mem3 & _ & H).
  apply bind_Returned in H as ([c st] & mem4 & _ & H).
  apply bind_Returned in H as ([x' y'] & mem5 & _ & H).
  injection H as <- <-. exists c, (x', y'). reflexivity.
Qed.

Lemma episode_loop_accumulator fuel d e lr : forall state a c mem c' st mem',
  episode_loop env rnd fuel d e lr state a c mem = Returned ((c', st), mem') ->
  episode_rewards env rnd fuel d e lr state a mem <> [] /\
  forall c0,
    episode_loop env rnd fuel d e lr state a c0 mem
    = Returned ((foldl PrimFloat.add c0 (episode_rewards env rnd fuel d e lr state a mem), st),
                mem').
Proof.
  induction fuel as [|fuel IH]; intros state a c mem c' st mem';
    cbn [episode_loop episode_rewards]; [discriminate|].
  intros H. apply bind_Returned in H as ([[[ns na] c1] st1] & mem1 & Hstep & H).
  apply td_step_accumulator in Hstep as [_ Hr]. rewrite (Hr 0%float).
  split; [discriminate|]. intros c0. rewrite bind_unfold, Hr.
  destruct (is_terminal st1) eqn:Ht.
  - injection H as <- <- <-. reflexivity.
  - apply IH in H as [_ Hrs]. cbn [foldl]. apply Hrs.
Qed.

Lemma episode_body_accumulator fuel d lr l n mem l' mem' :
  episode_body env rnd fuel d lr l n mem = Returned (l', mem') ->
  episode_body_rewards env rnd fuel d lr l mem <> [] /\
  forall l0, same_but_rewards l0 l ->
    episode_body_rewards env rnd fuel d lr l0 mem = episode_body_rewards env rnd fuel d lr l mem /\
    episode_body env rnd fuel d lr l0 n mem =
    Returned (locals_after l0
                (foldl PrimFloat.add (cumulative_reward l0)
                       (episode_body_rewards env rnd fuel d lr l mem))
                (x l', y l') n, mem').
Proof.
  unfold episode_body, episode_body_rewards. intros H.
  apply bind_Returned in H as (state & mem1 & H1 & H).
  apply bind_Returned in H as (action & mem2 & H2 & H).
  apply bind_Returned in H as (u & mem3 & H3 & H).
  apply bind_Returned in H as ([c st] & mem4 & H4 & H).
  apply bind_Returned in H as ([x' y'] & mem5 & H5 & H).
  injection H as <- <-. cbn [x y].
  apply episode_loop_accumulator in H4 as (Hne & Hrs).
  assert (Hpre : forall l0, same_but_rewards l0 l ->
            (state ← environment_reset env (x l0, y l0);
             action ← choose_action env rnd (exploration_rate l0) state;
             ensure env (state, action);;
             mret (state, action)) mem = Returned ((state, action), mem3)).
  { intros l0 (Hx & Hy & He & _ & _). rewrite Hx, Hy, He.
    rewrite (bind_Returned_intro _ _ _ _ _ H1), (bind_Returned_intro _ _ _ _ _ H2),
      (bind_Returned_intro _ _ _ _ _ H3). reflexivity. }
  assert (Hll : same_but_rewards l l) by (unfold same_but_rewards; auto).
  rewrite (Hpre l Hll). split; [exact Hne|]. intros l0 Hl0. rewrite (Hpre l0 Hl0).
  destruct Hl0 as (Hx & Hy & He & _ & _). rewrite Hx, Hy, He.
  split; [reflexivity|].
  rewrite (bind_Returned_intro _ _ _ _ _ H1), (bind_Returned_intro _ _ _ _ _ H2),
    (bind_Returned_intro _ _ _ _ _ H3), (bind_Returned_intro _ _ _ _ _ (Hrs _)),
    (bind_Returned_intro _ _ _ _ _ H5).
  unfold locals_after, decay. cbn [fst snd]. rewrite He. reflexivity.
Qed.

End Episodes.

(** ** Whole runs *)

Section Runs.
Context (env : Environment) (rnd : Entropy).
Implicit Types (mem : Mem env) (l : Locals).

Lemma for_each_episodes_inv fuel d lr items : forall l mem l' mem',
  for_each env (episode_body env rnd fuel d lr) l items mem = Returned (l', mem') ->
  win_history l' = win_history l /\
  length (cumulative_reward_history l')
  = (length (cumulative_reward_history l) + length items)%nat /\
  exploration_rate l' = Nat.iter (length items) decay (exploration_rate l) /\
  episode l' = match last items with Some n => Some n | None => episode l end.
Proof.
  induction items as [|n items IH]; intros l mem l' mem'; cbn [for_each].
  - intros [= <- <-]. cbn. repeat split; lia.
  - intros H. apply bind_Returned in H as (l1 & mem1 & H1 & H).
    apply episode_body_inv in H1 as (c & pos & ->).
    apply IH in H as (Hw & Hh & He & Hn). cbn -[Nat.iter last] in *.
    rewrite Hw, Hh, He, Hn, length_app, last_cons, Nat.iter_succ_r. cbn [length].
    repeat split; try lia. destruct (last items); reflexivity.
Qed.



Lemma for_each_app_inv {S A} (body : S -> A -> M env S) items1 : forall s items2 mem s' mem',
  for_each env body s (items1 ++ items2) mem = Returned (s', mem') ->
  exists s1 mem1,
    for_each env body s items1 mem = Returned (s1, mem1) /\
    for_each env body s1 items2 mem1 = Returned (s', mem').
Proof.
  induction items1 as [|a items1 IH]; intros s items2 mem s' mem'; cbn [app for_each].
  - intros H. exists s, mem. split; [reflexivity | exact H].
  - intros H. apply bind_Returned in H as (s0 & mem0 & Hbody & H).
    apply IH in H as (s1 & mem1 & H1 & H2). exists s1, mem1.
    split; [|exact H2]. rewrite bind_unfold, Hbody. exact H1.
Qed.

(** A run of [k] episodes goes through the end of the run of [j] episodes,
    for every [j] up to [k]. *)
Lemma train_loop_prefix fuel d e lr j k mem lk memk :
  train_loop env rnd fuel d e lr k mem = Returned (lk, memk) ->
  (0 <= j <= k)%Z ->
  exists lj memj,
    train_loop env rnd fuel d e lr j mem = Returned (lj, memj) /\
    for_each env (episode_body env rnd fuel d lr) lj (seqZ (1 + j) (k - j)) memj
      = Returned (lk, memk).
Proof.
  unfold train_loop. intros H Hjk.
  replace k with (j + (k - j))%Z in H by lia.
  rewrite seqZ_app in H by lia. apply for_each_app_inv in H. exact H.
Qed.

Lemma train_loop_rate fuel d e lr episodes mem l mem' :
  train_loop env rnd fuel d e lr episodes mem = Returned (l, mem') ->
  exploration_rate l = Nat.iter (Z.to_nat episodes) decay e.
Proof.
  intros H. apply for_each_episodes_inv in H as (_ & _ & He & _).
  rewrite length_seqZ in He. exact He.
Qed.

Lemma for_each_lockstep fuel d lr items : forall l ls mem l' mem',
  for_each env (episode_body env rnd fuel d lr) l items mem = Returned (l', mem') ->
  same_but_rewards ls l ->
  exists ls',
    length (run_rewards env rnd fuel d lr l items mem) = length items /\
    Forall (fun rs => rs <> []) (run_rewards env rnd fuel d lr l items mem) /\
    for_each env (episode_body_per_episode env rnd fuel d lr) ls items mem
      = Returned (ls', mem') /\
    cumulative_reward_history l'
      = cumulative_reward_history l
        ++ running_totals (cumulative_reward l) (run_rewards env rnd fuel d lr l items mem) /\
    cumulative_reward_history ls'
      = cumulative_reward_history ls
        ++ map (foldl PrimFloat.add 0%float) (run_rewards env rnd fuel d lr l items mem) /\
    same_but_rewards ls' l'.
Proof.
  induction items as [|n items IH]; intros l ls mem l' mem'; cbn [for_each run_rewards].
  - intros [= <- <-] Hs. exists ls. cbn. rewrite !app_nil_r.
    split; [reflexivity|]. split; [constructor|]. auto.
  - intros H Hs. apply bind_Returned in H as (l1 & mem1 & H1 & H).
    destruct (episode_body_accumulator _ _ _ _ _ _ _ _ _ _ H1) as (Hne & Hrs).
    set (rs := episode_body_rewards env rnd fuel d lr l mem) in *.
    rewrite H1.
    assert (Hl1 : l1 = locals_after l (foldl PrimFloat.add (cumulative_reward l) rs)
                         (x l1, y l1) n).
    { assert (Hll : same_but_rewards l l) by (unfold same_but_rewards; auto).
      destruct (Hrs l Hll) as [_ E]. rewrite H1 in E. congruence. }
    set (ls1 := locals_after (with_cumulative_reward 0%float ls)
                  (foldl PrimFloat.add 0%float rs) (x l1, y l1) n).
    assert (Hs1 : same_but_rewards ls1 l1).
    { rewrite Hl1. unfold ls1, same_but_rewards, locals_after. cbn.
      destruct Hs as (_ & _ & -> & -> & _). auto. }
    destruct (IH l1 ls1 mem1 l' mem' H Hs1) as (ls' & Hlen & Hall & Hrun & Hh & Hhs & Hs').
    exists ls'. cbn [length running_totals map].
    split; [lia|]. split; [constructor; [exact Hne | exact Hall]|]. split.
    { rewrite bind_unfold. unfold episode_body_per_episode at 1.
      destruct (Hrs (with_cumulative_reward 0%float ls)) as [_ E].
      { unfold same_but_rewards, with_cumulative_reward. cbn. exact Hs. }
      rewrite E. exact Hrun. }
    split; [|split; [|exact Hs']].
    + rewrite Hh. rewrite Hl1 at 1 2. cbn. rewrite <- app_assoc. reflexivity.
    + rewrite Hhs. unfold ls1. cbn. rewrite <- app_assoc. reflexivity.
Qed.

(** Each running total is the previous one to which the rewards of one more
    episode have been added. *)
Lemma running_totals_lookup rewards : forall c,
  running_totals c rewards !! 0%nat = foldl PrimFloat.add c <$> rewards !! 0%nat /\
  forall i prev, running_totals c rewards !! i = Some prev ->
    running_totals c rewards !! S i = foldl PrimFloat.add prev <$> rewards !! S i.
Proof.
  induction rewards as [|rs rewards IH]; intros c; cbn [running_totals].
  - split; [reflexivity|]. intros i prev H. rewrite lookup_nil in H. discriminate.
  - split; [reflexivity|]. intros [|i] prev H; cbn in H |- *.
    + injection H as <-. apply IH.
    + apply IH, H.
Qed.

End Runs.

(** ** A run of one episode *)

Section OneStep.
Context (env : Environment) (rnd : Entropy).
Implicit Types (mem : Mem env) (l : Locals).

Lemma skip_occupied_from_origin fuel mem :
  skip_occupied env (S fuel) (next_cell (0, 0)%Z) mem = Returned ((2, 0)%Z, mem).
Proof. destruct fuel; reflexivity. Qed.

Lemma episode_loop_terminal fuel d e lr state a c mem ns na c' st mem' :
  td_step env rnd d e lr state a c mem = Returned ((ns, na, c', st), mem') ->
  is_terminal st = true ->
  episode_loop env rnd (S fuel) d e lr state a c mem = Returned ((c', st), mem').
Proof. intros H Ht. cbn [episode_loop]. rewrite bind_unfold, H, Ht. reflexivity. Qed.

(** A run of one episode on a fresh agent, when every move from the start
    state ends the episode with reward [r]. *)
Lemma train_one_step fuel d e lr sac (w0 w1 : World env) s r st :
  actions env <> [] ->
  reset env (0, 0)%Z w0 = (s, w1) ->
  (forall a, a ∈ actions env -> exists ns w2, _aplica env a w1 = ((ns, r, st), w2)) ->
  is_terminal st = true ->
  exists a mem1 mem',
    choose_action env rnd e s (fresh_agent w1) = Returned (a, mem1) /\
    a ∈ actions env /\
    train env rnd (S fuel) d e lr 1 sac (fresh_agent w0)
      = Returned (([(0 + r)%float], [], 1%Z), mem') /\
    Q mem' !! (s, a) = Some (0 + lr * (r + d * 0 - 0))%float /\
    forall k v, Q mem' !! k = Some v -> k <> (s, a) -> v = 0%float.
Proof.
  intros Hne Hreset Hstep Hterm.
  destruct (choose_action_returns env rnd e s (fresh_agent w1) Hne nan_free_empty)
    as (a & Ha & Hc).
  destruct (Hstep a Ha) as (ns & w2 & Hmove).
  set (mem2 := after_choice (after_random (fresh_agent w1))) in *.
  set (mem3 := with_Q (ensured (Q mem2) (s, a)) mem2).
  assert (Hq3 : Q mem3 = <[(s, a) := 0%float]> ∅) by reflexivity.
  assert (Hnan3 : nan_free (Q (after_aplica w2 mem3))).
  { cbn [Q after_aplica]. rewrite Hq3. apply nan_free_insert; [reflexivity|apply nan_free_empty]. }
  destruct (choose_action_returns env rnd e ns (after_aplica w2 mem3) Hne Hnan3)
    as (na & Hna & Hc').
  assert (Hkey : is_Some (Q mem3 !! (s, a))) by (rewrite Hq3, lookup_insert_eq; eauto).
  pose proof (td_step_returns env rnd d e lr s a 0%float mem3 ns r st w2 na Hmove Hc' Hkey)
    as Htd.
  apply (episode_loop_terminal fuel) in Htd; [|exact Hterm].
  eexists a, _, _. split; [exact Hc|]. split; [exact Ha|]. split; [|split].
  - unfold train, train_loop. change (seqZ 1 1) with [1%Z]. cbn [for_each].
    rewrite !bind_unfold. unfold episode_body. rewrite bind_unfold.
    unfold environment_reset at 1. cbn [x y initial_locals world fresh_agent].
    rewrite Hreset. rewrite bind_unfold.
    cbn [exploration_rate initial_locals].
    change {| Q := Q (fresh_agent w0); world := w1;
              np_used := np_used (fresh_agent w0);
              py_used := py_used (fresh_agent w0) |} with (fresh_agent w1).
    rewrite Hc, bind_unfold, ensure_unfold. fold mem2 mem3.
    rewrite bind_unfold. cbn [cumulative_reward initial_locals]. rewrite Htd.
    rewrite bind_unfold, skip_occupied_from_origin. reflexivity.
  - cbn [Q with_Q]. rewrite lookup_insert_eq. f_equal.
    unfold td_target, estimate. rewrite Hq3, lookup_insert_eq. cbn [default].
    rewrite lookup_insert. case_decide; [reflexivity|]. rewrite lookup_empty. reflexivity.
  - cbn [Q with_Q]. intros k v Hk Hne'. rewrite lookup_insert_ne in Hk by congruence.
    apply lookup_ensured_Some in Hk. rewrite Hk. unfold estimate. rewrite Hq3.
    rewrite lookup_insert. case_decide; [reflexivity|]. rewrite lookup_empty. reflexivity.
Qed.

End OneStep.

(** ** The update rule (C1) *)

Lemma estimate_empty state a : estimate ∅ state a = 0%float.
Proof. unfold estimate. rewrite lookup_empty. reflexivity. Qed.

Lemma estimate_insert table k v state a :
  estimate (<[k := v]> table) state a
  = if decide (k = (state, a)) then v else estimate table state a.
Proof. unfold estimate. rewrite lookup_insert. case_decide; reflexivity. Qed.

Lemma td_step_estimates env rnd d e lr state a c mem ns na c' st mem' :
  td_step env rnd d e lr state a c mem = Returned ((ns, na, c', st), mem') ->
  exists r w',
    _aplica env a (world mem) = ((ns, r, st), w') /\
    c' = (c + r)%float /\
    Q mem' !! (state, a) = Some (td_target d lr (Q mem) state a r ns na) /\
    forall s' a', (s', a') <> (state, a) ->
      estimate (Q mem') s' a' = estimate (Q mem) s' a'.
Proof.
  intros H. apply td_step_inv in H as (r & w' & Hstep & -> & _ & ->).
  exists r, w'. cbn [Q with_Q]. split; [exact Hstep|]. split; [reflexivity|].
  split; [apply lookup_insert_eq|].
  intros s' a' Hne. rewrite estimate_insert. case_decide; [congruence|].
  apply estimate_ensured.
Qed.

(** C1: every table update of a training step stores
    [old + learning_rate * (reward + discount * estimate(next_state,
    next_action) - old)] at [(state, action)] and leaves the other estimates as
    they were; the step is carried out whenever [(state, action)] is a key and
    no stored value is NaN; and a one-episode run on a fresh agent whose first
    move wins with reward 1.0, with discount 0.9 and learning rate 0.5,
    returns and leaves [estimate(state, action) = 0.5] for the action taken. *)
Theorem C1_td_update env rnd :
  (forall d e lr state a c mem ns na c' st mem',
     td_step env rnd d e lr state a c mem = Returned ((ns, na, c', st), mem') ->
     exists r w',
       _aplica env a (world mem) = ((ns, r, st), w') /\
       let old := estimate (Q mem) state a in
       let new := (old + lr * (r + d * estimate (Q mem) ns na - old))%float in
       Q mem' !! (state, a) = Some new /\
       estimate (Q mem') state a = new /\
       forall s' a', (s', a') <> (state, a) ->
         estimate (Q mem') s' a' = estimate (Q mem) s' a')
  /\
  (forall d e lr state a c (mem : Mem env),
     actions env <> [] -> nan_free (Q mem) -> is_Some (Q mem !! (state, a)) ->
     exists ns na r st mem',
       td_step env rnd d e lr state a c mem
         = Returned ((ns, na, (c + r)%float, st), mem') /\
       let old := estimate (Q mem) state a in
       Q mem' !! (state, a)
       = Some (old + lr * (r + d * estimate (Q mem) ns na - old))%float)
  /\
  (forall fuel e sac (w0 w1 : World env) s,
     actions env <> [] ->
     reset env (0, 0)%Z w0 = (s, w1) ->
     (forall a, a ∈ actions env ->
        exists ns w2, _aplica env a w1 = ((ns, 1%float, WIN), w2)) ->
     exists a mem1 mem',
       choose_action env rnd e s (fresh_agent w1) = Returned (a, mem1) /\
       train env rnd (S fuel) 0.9 e 0.5 1 sac (fresh_agent w0)
         = Returned (([1%float], [], 1%Z), mem') /\
       estimate (Q mem') s a = 0.5%float).
Proof.
  split; [|split].
  - intros d e lr state a c mem ns na c' st mem' H.
    apply td_step_estimates in H as (r & w' & Hstep & _ & Hnew & Hrest).
    exists r, w'. split; [exact Hstep|]. cbn zeta. split; [exact Hnew|].
    split; [|exact Hrest]. unfold estimate at 1. rewrite Hnew. reflexivity.
  - intros d e lr state a c mem Hne Hnan Hkey.
    destruct (_aplica env a (world mem)) as [[[ns r] st] w'] eqn:Hmove.
    destruct (choose_action_returns env rnd e ns (after_aplica w' mem) Hne Hnan)
      as (na & _ & Hc).
    eexists ns, na, r, st, _. split.
    + apply (td_step_returns env rnd d e lr state a c mem ns r st w' na Hmove Hc Hkey).
    + cbn [Q with_Q]. apply lookup_insert_eq.
  - intros fuel e sac w0 w1 s Hne Hreset Hwin.
    destruct (train_one_step env rnd fuel 0.9 e 0.5 sac w0 w1 s 1 WIN Hne Hreset Hwin eq_refl)
      as (a & mem1 & mem' & Hc & _ & Ht & Hq & _).
    exists a, mem1, mem'. split; [exact Hc|]. split; [exact Ht|].
    unfold estimate. rewrite Hq. reflexivity.
Qed.

Lemma C1_td_update_witness :
  (exists a mem',
     train Demo.win_at_once (Demo.draws_from 0) 1 0.9 0.25 0.5 1 false Demo.start
       = Returned (([1%float], [], 1%Z), mem') /\
     estimate (Q mem') Demo.origin a = 0.5%float) /\
  (exists mem',
     td_step Demo.win_at_once (Demo.draws_from 0) 0.9 0.25 0.5
       Demo.origin MOVE_LEFT 0 Demo.left_ensured
       = Returned (([7; 7]%Z, MOVE_LEFT, 1%float, WIN), mem') /\
     Q mem' !! (Demo.origin, MOVE_LEFT) = Some 0.5%float).
Proof.
  destruct (C1_td_update Demo.win_at_once (Demo.draws_from 0)) as (Hstep & _ & Hrun). split.
  - destruct (Hrun 0%nat 0.25%float false tt tt Demo.origin)
      as (a & mem1 & mem' & _ & Ht & He).
    + discriminate.
    + reflexivity.
    + intros a _. exists [7; 7]%Z, tt. reflexivity.
    + exists a, mem'. split; [exact Ht | exact He].
  - assert (Htd : exists mem',
              td_step Demo.win_at_once (Demo.draws_from 0) 0.9 0.25 0.5
                Demo.origin MOVE_LEFT 0 Demo.left_ensured
              = Returned (([7; 7]%Z, MOVE_LEFT, 1%float, WIN), mem'))
      by (eexists; vm_compute; reflexivity).
    destruct Htd as [mem' Htd]. exists mem'. split; [exact Htd|].
    destruct (Hstep _ _ _ _ _ _ _ _ _ _ _ _ Htd) as (r & w' & Hmove & Hnew & _).
    injection Hmove as <- _. rewrite Hnew. reflexivity.
Defined.

(** ** Greedy selection (C2) *)

Section GreedyScenarios.
Context (env : Environment).

(** The action returned by [predict] is not below any other action. *)
Lemma predict_maximal rnd state (mem : Mem env) a mem' :
  predict env rnd state mem = Returned (a, mem') ->
  a ∈ actions env /\
  exists m, np_max (q_of env (Q mem) state) = Some m /\
    (estimate (Q mem) (as_key state) a =? m)%float = true /\
    forall b, b ∈ actions env ->
      (estimate (Q mem) (as_key state) b <=? m)%float = true /\
      (estimate (Q mem) (as_key state) a <? estimate (Q mem) (as_key state) b)%float = false.
Proof.
  intros H. apply predict_sound in H as (_ & m & Hm & Ha & Heq).
  split; [exact Ha|]. exists m. split; [exact Hm|]. split; [exact Heq|].
  intros b Hb.
  assert (Hbm : (estimate (Q mem) (as_key state) b <=? m)%float = true).
  { eapply np_max_q_upper; eauto. apply eqb_not_nan in Heq. tauto. }
  split; [exact Hbm|]. apply leb_not_ltb.
  eapply leb_trans; [exact Hbm | apply eqb_leb, Heq].
Qed.

(** With a single maximal action among NaN-free estimates, [predict] returns
    it whatever the draw. *)
Lemma predict_unique_max rnd state (mem : Mem env) best :
  best ∈ actions env -> nan_free (Q mem) ->
  (forall a, a ∈ actions env -> a <> best ->
     (estimate (Q mem) (as_key state) best <=? estimate (Q mem) (as_key state) a)%float = false) ->
  predict env rnd state mem = Returned (best, after_choice mem).
Proof.
  intros Hbest Hnan Hlt.
  destruct (predict_returns env rnd state mem) as [a Ha].
  { intros E. rewrite E in Hbest. inversion Hbest. }
  { intros a _. apply nan_free_estimate, Hnan. }
  pose proof Ha as Hmax. apply predict_maximal in Hmax as (Hin & m & _ & Heq & Hall).
  destruct (decide (a = best)) as [->|Hne]; [exact Ha|].
  destruct (Hall best Hbest) as [Hle _].
  specialize (Hlt a Hin Hne).
  rewrite (leb_trans _ _ _ Hle (eqb_leb _ _ Heq)) in Hlt. discriminate.
Qed.

End GreedyScenarios.

Section Scenarios.
Context (env : Environment).

(** C2: [predict] returns only actions whose estimate equals the maximum of
    the estimates of the state, never one with a strictly smaller estimate,
    and it does return one when no stored value is NaN; a single maximal
    action is returned whatever the draw, and every maximal action is returned
    for some draw;
    with UP stored as 0.0 and DOWN as 5.0 it returns DOWN for every draw;
    with UP and DOWN both stored as 3.0 and nothing else, it returns UP or
    DOWN for every draw, and each of the two for some draw. *)
Theorem C2_greedy_selection :
  (forall rnd state (mem : Mem env) a mem',
     predict env rnd state mem = Returned (a, mem') ->
     a ∈ actions env /\
     exists m, np_max (q_of env (Q mem) state) = Some m /\
       (estimate (Q mem) (as_key state) a =? m)%float = true /\
       forall b, b ∈ actions env ->
         (estimate (Q mem) (as_key state) b <=? m)%float = true /\
         (estimate (Q mem) (as_key state) a <? estimate (Q mem) (as_key state) b)%float
         = false)
  /\
  (forall rnd state (mem : Mem env),
     actions env <> [] -> nan_free (Q mem) ->
     exists a, predict env rnd state mem = Returned (a, after_choice mem))
  /\
  (forall rnd state (mem : Mem env) best,
     best ∈ actions env -> nan_free (Q mem) ->
     (forall a, a ∈ actions env -> a <> best ->
        (estimate (Q mem) (as_key state) best <=? estimate (Q mem) (as_key state) a)%float
        = false) ->
     predict env rnd state mem = Returned (best, after_choice mem))
  /\
  (forall state (mem : Mem env) a m,
     np_max (q_of env (Q mem) state) = Some m -> a ∈ actions env ->
     (estimate (Q mem) (as_key state) a =? m)%float = true ->
     exists k, forall rnd, py_stream rnd (py_used mem) = k ->
       predict env rnd state mem = Returned (a, after_choice mem))
  /\
  (forall rnd s0 (mem : Mem env),
     MOVE_DOWN ∈ actions env ->
     Q mem = <[(s0, MOVE_DOWN) := 5%float]> (<[(s0, MOVE_UP) := 0%float]> ∅) ->
     predict env rnd (Hashable s0) mem = Returned (MOVE_DOWN, after_choice mem))
  /\
  (forall s0 (mem : Mem env),
     MOVE_UP ∈ actions env -> MOVE_DOWN ∈ actions env ->
     Q mem = <[(s0, MOVE_DOWN) := 3%float]> (<[(s0, MOVE_UP) := 3%float]> ∅) ->
     (forall rnd,
        predict env rnd (Hashable s0) mem = Returned (MOVE_UP, after_choice mem) \/
        predict env rnd (Hashable s0) mem = Returned (MOVE_DOWN, after_choice mem)) /\
     (exists k, forall rnd, py_stream rnd (py_used mem) = k ->
        predict env rnd (Hashable s0) mem = Returned (MOVE_UP, after_choice mem)) /\
     (exists k, forall rnd, py_stream rnd (py_used mem) = k ->
        predict env rnd (Hashable s0) mem = Returned (MOVE_DOWN, after_choice mem))).
Proof.
  split; [intros rnd state mem a mem'; apply predict_maximal|].
  split; [|split; [|split; [|split]]].
  - intros rnd state mem Hne Hnan. apply predict_returns; [exact Hne|].
    intros a _. apply nan_free_estimate, Hnan.
  - intros rnd state mem best. apply predict_unique_max.
  - intros state mem a m. apply predict_reaches.
  - intros rnd s0 mem Hdown HQ. apply predict_unique_max; [exact Hdown| |].
    + rewrite HQ. repeat apply nan_free_insert; try reflexivity. apply nan_free_empty.
    + intros a _ Hne. cbn [as_key]. rewrite HQ, !estimate_insert, estimate_empty.
      destruct a; repeat case_decide; try congruence; reflexivity.
  - intros s0 mem Hup Hdown HQ.
    assert (Hnan : nan_free (Q mem)).
    { rewrite HQ. repeat apply nan_free_insert; try reflexivity. apply nan_free_empty. }
    assert (Hest : forall a, estimate (Q mem) s0 a
                     = match a with MOVE_UP | MOVE_DOWN => 3%float | _ => 0%float end).
    { intros a. rewrite HQ, !estimate_insert, estimate_empty.
      destruct a; repeat case_decide; try congruence; reflexivity. }
    destruct (np_max_is_Some (q_of env (Q mem) (Hashable s0))) as [m Hm].
    { rewrite q_of_map. intros E. apply fmap_nil_inv in E. rewrite E in Hup. inversion Hup. }
    assert (Hm3 : (3 =? m)%float = true).
    { pose proof (np_max_in _ _ Hm) as Hin. rewrite q_of_map in Hin.
      apply list_elem_of_fmap in Hin as (a & Heqm & Ha).
      cbn [as_key] in Heqm. rewrite Hest in Heqm.
      assert (Hle : (estimate (Q mem) (as_key (Hashable s0)) MOVE_UP <=? m)%float = true).
      { apply (np_max_q_upper env (Q mem) (Hashable s0) m MOVE_UP Hm); [|exact Hup].
        subst m. destruct a; reflexivity. }
      cbn [as_key] in Hle. rewrite Hest in Hle. subst m.
      destruct a; first [reflexivity | discriminate Hle]. }
    split; [|split].
    + intros rnd. destruct (predict_returns env rnd (Hashable s0) mem) as [a Ha].
      { intros E. rewrite E in Hup. inversion Hup. }
      { intros a _. apply nan_free_estimate, Hnan. }
      pose proof Ha as Hmax. apply predict_maximal in Hmax as (_ & m' & Hm' & Heq & _).
      rewrite Hm in Hm'. injection Hm' as <-. cbn [as_key] in Heq. rewrite Hest in Heq.
      destruct a; auto.
      * pose proof (leb_trans _ _ _ (eqb_leb_l _ _ Hm3) (eqb_leb _ _ Heq)) as C.
        vm_compute in C. discriminate C.
      * pose proof (leb_trans _ _ _ (eqb_leb_l _ _ Hm3) (eqb_leb _ _ Heq)) as C.
        vm_compute in C. discriminate C.
    + eapply (predict_reaches env (Hashable s0) mem MOVE_UP m Hm Hup).
      cbn [as_key]. rewrite Hest. exact Hm3.
    + eapply (predict_reaches env (Hashable s0) mem MOVE_DOWN m Hm Hdown).
      cbn [as_key]. rewrite Hest. exact Hm3.
Qed.

End Scenarios.

Lemma C2_greedy_selection_witness :
  predict Demo.win_at_once (Demo.draws_from 7) (Hashable Demo.origin) Demo.scenario_B
    = Returned (MOVE_DOWN, after_choice Demo.scenario_B) /\
  (predict Demo.win_at_once (Demo.draws_from 7) (Hashable Demo.origin) Demo.scenario_C
     = Returned (MOVE_UP, after_choice Demo.scenario_C) \/
   predict Demo.win_at_once (Demo.draws_from 7) (Hashable Demo.origin) Demo.scenario_C
     = Returned (MOVE_DOWN, after_choice Demo.scenario_C)) /\
  MOVE_DOWN ∈ actions Demo.win_at_once.
Proof.
  destruct (C2_greedy_selection Demo.win_at_once) as (Hmax & _ & _ & _ & HB & HC).
  assert (Hup : MOVE_UP ∈ actions Demo.win_at_once) by (apply list_elem_of_In; simpl; tauto).
  assert (Hdown : MOVE_DOWN ∈ actions Demo.win_at_once) by (apply list_elem_of_In; simpl; tauto).
  split; [|split].
  - apply HB; [exact Hdown | reflexivity].
  - destruct (HC Demo.origin Demo.scenario_C Hup Hdown eq_refl) as (H & _ & _). apply H.
  - assert (Hrun : predict Demo.win_at_once (Demo.draws_from 7) (Hashable Demo.origin)
                     Demo.scenario_B
                   = Returned (MOVE_DOWN, after_choice Demo.scenario_B))
      by (vm_compute; reflexivity).
    exact (proj1 (Hmax _ _ _ _ _ Hrun)).
Defined.

(** C3, as amended: the history that [train] returns holds running totals
    of the rewards the environment returned. With the rewards of the run taken
    episode by episode, move by move, from the answers of [_aplica], the first
    entry is zero plus the rewards of the first episode, and every later entry
    is the entry before it plus the rewards of its own episode: the
    accumulator is set to zero once, before the first episode. The
    per-episode totals of the same rewards are what the loop would record if
    the accumulator started from zero in every episode. *)
Theorem C3_history_is_running_total env rnd fuel d e lr episodes sac
    (mem : Mem env) h w n mem' :
  train env rnd fuel d e lr episodes sac mem = Returned ((h, w, n), mem') ->
  length (train_rewards env rnd fuel d e lr episodes mem) = Z.to_nat episodes /\
  Forall (fun rs => rs <> []) (train_rewards env rnd fuel d e lr episodes mem) /\
  h = running_totals 0%float (train_rewards env rnd fuel d e lr episodes mem) /\
  h !! 0%nat
  = foldl PrimFloat.add 0%float <$> train_rewards env rnd fuel d e lr episodes mem !! 0%nat /\
  (forall i prev, h !! i = Some prev ->
     h !! S i
     = foldl PrimFloat.add prev <$> train_rewards env rnd fuel d e lr episodes mem !! S i) /\
  train_per_episode env rnd fuel d e lr episodes sac mem
    = Returned ((map (foldl PrimFloat.add 0%float)
                     (train_rewards env rnd fuel d e lr episodes mem), w, n), mem').
Proof.
  unfold train, train_per_episode, train_loop, train_loop_per_episode, train_rewards.
  intros H. apply bind_Returned in H as (l & mem1 & Hl & H).
  destruct (for_each_lockstep env rnd fuel d lr _ _ (initial_locals e) _ _ _ Hl)
    as (ls' & Hlen & Hall & Hrun & Hh & Hhs & (_ & _ & _ & Hw & Hn)).
  { unfold same_but_rewards. auto. }
  rewrite length_seqZ in Hlen. split; [exact Hlen|]. split; [exact Hall|].
  destruct (episode l) as [k|] eqn:Ek; [|discriminate]. injection H as <- <- <- <-.
  cbn [initial_locals cumulative_reward cumulative_reward_history app] in Hh, Hhs.
  rewrite Hh. split; [reflexivity|].
  split; [apply running_totals_lookup|]. split; [apply running_totals_lookup|].
  rewrite bind_unfold, Hrun, Hn, Hhs, Hw. reflexivity.
Qed.

Lemma C3_history_is_running_total_witness :
  train_rewards Demo.corridor (Demo.draws_from 0) 20 0.9 1 0.5 3 Demo.corridor_start
  = [Demo.corridor_rewards; Demo.corridor_rewards; Demo.corridor_rewards] /\
  [8.5; 17; 25.5]%float
  = running_totals 0%float [Demo.corridor_rewards; Demo.corridor_rewards; Demo.corridor_rewards].
Proof.
  assert (Hrun : exists mem',
            train Demo.corridor (Demo.draws_from 0) 20 0.9 1 0.5 3 false Demo.corridor_start
            = Returned (([8.5; 17; 25.5]%float, [], 3%Z), mem'))
    by (eexists; vm_compute; reflexivity).
  destruct Hrun as [mem' Hrun].
  destruct (C3_history_is_running_total _ _ _ _ _ _ _ _ _ _ _ _ _ Hrun)
    as (_ & _ & Hh & _).
  assert (E : train_rewards Demo.corridor (Demo.draws_from 0) 20 0.9 1 0.5 3
                Demo.corridor_start
              = [Demo.corridor_rewards; Demo.corridor_rewards; Demo.corridor_rewards])
    by (vm_compute; reflexivity).
  rewrite E in Hh. split; [exact E | exact Hh].
Defined.

(** C3 as stated fails: in the corridor, with every action drawn at random,
    each of three episodes collects 8.5 (six moves at -0.25, then 10.0), and
    the history is 8.5, 17.0, 25.5 where per-episode totals would be 8.5 three
    times. *)
Lemma C3_counterexample :
  returned_value
    (train Demo.corridor (Demo.draws_from 0) 20 0.9 1 0.5 3 false Demo.corridor_start)
  = Some ([8.5; 17; 25.5]%float, [], 3%Z) /\
  returned_value
    (train_per_episode Demo.corridor (Demo.draws_from 0) 20 0.9 1 0.5 3 false
       Demo.corridor_start)
  = Some ([8.5; 8.5; 8.5]%float, [], 3%Z).
Proof. split; vm_compute; reflexivity. Qed.




(** C5, as amended: every completed episode sets the exploration rate to
    [max(0.01, exploration_rate * 0.9975)]; within a run, from the end of the
    first episode on, the rate never drops below 0.01 and never increases,
    and when the initial rate is itself at least 0.01 this holds from the
    initial value on. [lj] is the state of the run after its [j]-th episode,
    [lk] the one after its [k]-th. *)
Theorem C5_exploration_decay env rnd fuel d lr :
  (forall l n (mem : Mem env) l' mem',
     episode_body env rnd fuel d lr l n mem = Returned (l', mem') ->
     exploration_rate l'
     = py_max min_exploration_rate (exploration_rate l * decay_rate)%float)
  /\
  (forall e j k (mem : Mem env) lk memk,
     train_loop env rnd fuel d e lr k mem = Returned (lk, memk) ->
     (0 <= j <= k)%Z ->
     (1 <= j)%Z \/ (min_exploration_rate <=? e)%float = true ->
     exists lj memj,
       train_loop env rnd fuel d e lr j mem = Returned (lj, memj) /\
       for_each env (episode_body env rnd fuel d lr) lj (seqZ (1 + j) (k - j)) memj
         = Returned (lk, memk) /\
       (exploration_rate lk <=? exploration_rate lj)%float = true /\
       (min_exploration_rate <=? exploration_rate lj)%float = true).
Proof.
  split.
  - intros l n mem l' mem' H. apply episode_body_inv in H as (c & pos & ->). reflexivity.
  - intros e j k mem lk memk Hk Hjk Hfloor.
    destruct (train_loop_prefix env rnd fuel d e lr j k mem lk memk Hk Hjk)
      as (lj & memj & Hj & Hrest).
    exists lj, memj. split; [exact Hj|]. split; [exact Hrest|].
    apply train_loop_rate in Hj, Hk. rewrite Hj, Hk.
    assert (Hmin : (min_exploration_rate <=? Nat.iter (Z.to_nat j) decay e)%float = true).
    { destruct Hfloor as [H1|He].
      - replace (Z.to_nat j) with (S (Z.to_nat (j - 1))) by lia. apply iter_decay_ge_min.
      - destruct (Z.to_nat j) as [|p]; [exact He | apply iter_decay_ge_min]. }
    split; [|exact Hmin].
    replace (Z.to_nat k) with ((Z.to_nat k - Z.to_nat j) + Z.to_nat j)%nat by lia.
    apply iter_decay_le, Hmin.
Qed.

Lemma C5_exploration_decay_witness :
  exists l0 l1 : Locals,
    exploration_rate l0 = 0.5%float /\
    (exploration_rate l1 <=? exploration_rate l0)%float = true /\
    (min_exploration_rate <=? exploration_rate l0)%float = true.
Proof.
  destruct (C5_exploration_decay Demo.win_at_once (Demo.draws_from 0) 1 0.9 0.5)
    as [Hstep Hmono].
  assert (H1 : exists l mem',
            train_loop Demo.win_at_once (Demo.draws_from 0) 1 0.9 0.5 0.5 1 Demo.start
            = Returned (l, mem'))
    by (eexists _, _; vm_compute; reflexivity).
  destruct H1 as (l1 & m1 & H1).
  destruct (Hmono 0.5%float 0%Z 1%Z Demo.start l1 m1 H1) as (l0 & m0 & H0 & _ & A & B);
    [lia | right; vm_compute; reflexivity |].
  exists l0, l1. split; [|exact (conj A B)].
  injection H0 as <- _. reflexivity.
Defined.

(** C5 as stated fails for an initial rate below the floor: starting from
    0.005, the rate after the first episode is 0.01, which is larger. *)
Lemma C5_counterexample :
  exploration_rate <$> returned_value
    (train_loop Demo.win_at_once (Demo.draws_from 0) 1 0.9 0.005 0.5 1 Demo.start)
  = Some 0.01%float /\
  (0.005 <? 0.01)%float = true /\ (0.01 <=? 0.005)%float = false.
Proof. repeat split; vm_compute; reflexivity. Qed.

(** C6: when no episode is requested the loop body never runs, the loop
    variable [episode] stays unbound, and the log line after the loop raises
    [UnboundLocalError]: [train] returns nothing, for [episodes = 0] as for
    any negative count. *)
Theorem C6_no_episode_raises env rnd fuel d e lr episodes sac (mem : Mem env) :
  (episodes <= 0)%Z ->
  train env rnd fuel d e lr episodes sac mem = Raised UnboundLocalError.
Proof.
  intros Hle. unfold train, train_loop.
  rewrite seqZ_nil by exact Hle. reflexivity.
Qed.

Lemma C6_no_episode_raises_witness :
  train Demo.win_at_once (Demo.draws_from 0) 1 0.9 0.1 0.5 0 false Demo.start
  = Raised UnboundLocalError.
Proof.
  apply (C6_no_episode_raises Demo.win_at_once (Demo.draws_from 0) 1 0.9 0.1 0.5 0 false).
  lia.
Defined.

(** [actua] and [predict] make the same draw; [actua] returns the index,
    [predict] the action at that index. *)
Lemma actua_is_index_of_predict env rnd (percepcio : gmap string state_arg) pos
    (mem : Mem env) i mem' :
  percepcio !! "POS"%string = Some pos ->
  actua env rnd percepcio mem = Returned (i, mem') ->
  exists a, actions env !! i = Some a /\ predict env rnd pos mem = Returned (a, mem').
Proof.
  intros Hpos. unfold actua, predict. rewrite Hpos. intros H.
  apply bind_Returned in H as (qv & mem1 & Hq & H).
  apply bind_Returned in H as (idxs & mem2 & Hidx & H).
  rewrite !bind_unfold, Hq, bind_unfold, Hidx, bind_unfold, H.
  unfold q in Hq. apply bind_Returned in Hq as (table & mem0 & [= <- <-] & [= <- <-]).
  unfold argmaxes in Hidx. destruct (np_max _) as [m|]; [|discriminate].
  injection Hidx as <- <-.
  apply random_choice_inv in H as [Hi _].
  apply argmax_index in Hi as (a & Ha & _).
  exists a. split; [exact Ha|]. unfold getitem. rewrite Ha. reflexivity.
Qed.

(** C7, at the failing input: on a fresh agent, with the raw draw 2, [actua]
    returns the number 2, the index drawn among the maximal entries, where
    [predict] returns the action [MOVE_UP] found at that index. *)
Theorem C7_actua_returns_index :
  returned_value
    (actua Demo.win_at_once (Demo.draws_from 2)
       {[ "POS"%string := Hashable Demo.origin ]} Demo.start) = Some 2%nat /\
  returned_value
    (predict Demo.win_at_once (Demo.draws_from 2) (Hashable Demo.origin) Demo.start)
  = Some MOVE_UP.
Proof. split; vm_compute; reflexivity. Qed.

(** C8, at the failing input: [train] never reads [stop_at_convergence], so it
    behaves the same with and without it; where every move wins at once, so
    that the greedy policy wins from every cell, ten episodes requested with
    the flag set are all run and 10 is reported. *)
Theorem C8_no_early_stop :
  (forall env rnd fuel d e lr episodes (mem : Mem env),
     train env rnd fuel d e lr episodes true mem
     = train env rnd fuel d e lr episodes false mem) /\
  returned_value
    (train Demo.win_at_once (Demo.draws_from 0) 2 0.9 0.1 0.5 10 true Demo.start)
  = Some ([1; 2; 3; 4; 5; 6; 7; 8; 9; 10]%float, [], 10%Z).
Proof. split; [reflexivity | vm_compute; reflexivity]. Qed.

(** C9, as amended: [train] does not validate [discount], [exploration_rate]
    or [learning_rate]. Whatever their values, a one-episode run on a fresh
    agent whose first move ends the episode returns normally, and the entry of
    the move holds the update formula evaluated with the values given. *)
Theorem C9_no_validation env rnd fuel (d e lr : float) sac (w0 w1 : World env) s r st :
  actions env <> [] ->
  reset env (0, 0)%Z w0 = (s, w1) ->
  (forall a, a ∈ actions env -> exists ns w2, _aplica env a w1 = ((ns, r, st), w2)) ->
  is_terminal st = true ->
  exists a mem',
    a ∈ actions env /\
    train env rnd (S fuel) d e lr 1 sac (fresh_agent w0)
      = Returned (([(0 + r)%float], [], 1%Z), mem') /\
    Q mem' !! (s, a) = Some (0 + lr * (r + d * 0 - 0))%float.
Proof.
  intros Hne Hreset Hstep Hterm.
  destruct (train_one_step env rnd fuel d e lr sac w0 w1 s r st Hne Hreset Hstep Hterm)
    as (a & mem1 & mem' & _ & Ha & Ht & Hq & _).
  exists a, mem'. auto.
Qed.

Lemma C9_no_validation_witness :
  exists a mem',
    train Demo.win_at_once (Demo.draws_from 0) 1 2 1.5 5 1 false Demo.start
      = Returned (([1%float], [], 1%Z), mem') /\
    Q mem' !! (Demo.origin, a) = Some 5%float.
Proof.
  destruct (C9_no_validation Demo.win_at_once (Demo.draws_from 0) 0 2 1.5 5 false
              tt tt Demo.origin 1 WIN) as (a & mem' & _ & Ht & Hq).
  - discriminate.
  - reflexivity.
  - intros a _. exists [7; 7]%Z, tt. reflexivity.
  - reflexivity.
  - exists a, mem'. split; [exact Ht | exact Hq].
Defined.

(** C9 as stated fails: with discount 2.0, exploration rate 1.5 and learning
    rate 5.0, all outside [0, 1], [train] raises nothing and returns its
    results. *)
Lemma C9_counterexample :
  returned_value
    (train Demo.win_at_once (Demo.draws_from 0) 1 2 1.5 5 1 false Demo.start)
  = Some ([1%float], [], 1%Z).
Proof. vm_compute. reflexivity. Qed.






(** The elements of a two-dimensional array come out row by row. *)
Example flatten_rows :
  flatten (Axis [Axis [Item 1; Item 2]; Axis [Item 3; Item 4]])%Z = [1; 2; 3; 4]%Z.
Proof. reflexivity. Qed.

(** Scenario A of the specification: on an empty table every estimate is
    zero. *)
Example estimate_on_empty_table state a : estimate ∅ state a = 0%float.
Proof. apply estimate_empty. Qed.

(** A run of several moves per episode; the table holds the values of the
    cells near the goal. *)
Example corridor_greedy_run :
  returned_value
    (train Demo.corridor (Demo.draws_from 0) 20 0.9 0.1 0.5 3 false Demo.corridor_start)
  = Some ([8.5; 18; 27.5]%float, [], 3%Z).
Proof. vm_compute. reflexivity. Qed.

(** An episode longer than the iterations allowed gives no answer. *)
Example corridor_out_of_fuel :
  train Demo.corridor (Demo.draws_from 0) 5 0.9 1 0.5 1 false Demo.corridor_start
  = OutOfFuel.
Proof. vm_compute. reflexivity. Qed.
(** * Further properties of the code *)

Set Warnings "-clear-no-such-hyp".

(** ** [q], [predict] and [actua] *)

(** The NaN of one element reaches the maximum of the array. *)
Lemma np_maximum_nan_l a b : is_nan a = true -> is_nan (np_maximum a b) = true.
Proof.
  intros Ha. unfold np_maximum. rewrite Ha, orb_true_r. exact Ha.
Qed.

Lemma np_maximum_nan_r a b : is_nan b = true -> is_nan (np_maximum a b) = true.
Proof.
  intros Hb. unfold np_maximum.
  destruct (b <=? a)%float eqn:Hle.
  - apply leb_not_nan in Hle. destruct Hle as [Hb' _]. congruence.
  - destruct (is_nan a) eqn:Ha; cbn [orb]; assumption.
Qed.

Lemma foldl_np_maximum_nan rest : forall a,
  is_nan a = true \/ (exists v, v ∈ rest /\ is_nan v = true) ->
  is_nan (foldl np_maximum a rest) = true.
Proof.
  induction rest as [|b rest IH]; intros a H; cbn [foldl].
  - destruct H as [H|(v & Hv & _)]; [exact H | inversion Hv].
  - apply IH. destruct H as [H|(v & Hv & Hn)].
    + left. apply np_maximum_nan_l, H.
    + apply elem_of_cons in Hv as [->|Hv]; [left; apply np_maximum_nan_r, Hn | right; eauto].
Qed.

Lemma np_max_nan arr v :
  v ∈ arr -> is_nan v = true -> exists m, np_max arr = Some m /\ is_nan m = true.
Proof.
  destruct arr as [|a rest]; [intros H; inversion H|]. intros Hv Hn.
  eexists. split; [reflexivity|]. apply foldl_np_maximum_nan.
  apply elem_of_cons in Hv as [->|Hv]; [left; exact Hn | right; eauto].
Qed.

Lemma eqb_nan_r v m : is_nan m = true -> (v =? m)%float = false.
Proof.
  intros Hm. apply not_true_is_false. intros H. apply eqb_not_nan in H. destruct H. congruence.
Qed.

Lemma nonzero_from_all_false mask : forall k,
  Forall (fun b => b = false) mask -> nonzero_from k mask = [].
Proof.
  induction mask as [|b mask IH]; intros k H; [reflexivity|].
  inversion H as [|? ? Hb Hrest]; subst. cbn [nonzero_from]. apply IH, Hrest.
Qed.

(** X1: [predict] and [actua] only read the table: when they return, the
    table, the environment and numpy's generator are as before, and exactly
    one draw of [random.choice] has been consumed. *)
Theorem greedy_queries_read_only (env : Environment) (rnd : Entropy) :
  (forall state (mem : Mem env) a mem',
     predict env rnd state mem = Returned (a, mem') ->
     Q mem' = Q mem /\ world mem' = world mem /\
     np_used mem' = np_used mem /\ py_used mem' = S (py_used mem)) /\
  (forall percepcio (mem : Mem env) i mem',
     actua env rnd percepcio mem = Returned (i, mem') ->
     Q mem' = Q mem /\ world mem' = world mem /\
     np_used mem' = np_used mem /\ py_used mem' = S (py_used mem)).
Proof.
  split.
  - intros state mem a mem' H. apply predict_sound in H as [-> _]. auto.
  - intros percepcio mem i mem'. unfold actua.
    destruct (percepcio !! "POS"%string) as [pos|] eqn:Hpos; [|discriminate].
    intros H.
    apply bind_Returned in H as (qv & mem1 & Hq & H).
    apply bind_Returned in H as (idxs & mem2 & Hidx & H).
    unfold q in Hq. apply bind_Returned in Hq as (table & mem0 & [= <- <-] & [= <- <-]).
    unfold argmaxes in Hidx. destruct (np_max _); [|discriminate].
    injection Hidx as <- <-. apply random_choice_inv in H as [_ ->]. auto.
Qed.

Lemma greedy_queries_read_only_witness :
  exists a mem',
    predict Demo.win_at_once (Demo.draws_from 0) (Hashable Demo.origin) Demo.scenario_B
    = Returned (a, mem') /\
    Q mem' = Q Demo.scenario_B /\ py_used mem' = 1%nat.
Proof.
  assert (Hrun : exists a mem',
            predict Demo.win_at_once (Demo.draws_from 0) (Hashable Demo.origin) Demo.scenario_B
            = Returned (a, mem'))
    by (eexists _, _; vm_compute; reflexivity).
  destruct Hrun as (a & mem' & Hrun).
  destruct (greedy_queries_read_only Demo.win_at_once (Demo.draws_from 0)) as [H _].
  destruct (H _ _ _ _ Hrun) as (HQ & _ & _ & Hpy).
  exists a, mem'. split; [exact Hrun|]. split; [exact HQ | exact Hpy].
Defined.

(** X2: the two ways [predict] fails. With an empty action enumeration
    [np.max] raises [ValueError]; when one of the estimates of the state is
    NaN, the maximum is NaN, no entry equals it, and [random.choice] raises
    [IndexError] on the empty index array. *)
Theorem predict_failures (env : Environment) (rnd : Entropy) (state : state_arg)
    (mem : Mem env) :
  (actions env = [] -> predict env rnd state mem = Raised ValueError) /\
  (forall a, a ∈ actions env ->
     is_nan (estimate (Q mem) (as_key state) a) = true ->
     predict env rnd state mem = Raised IndexError).
Proof.
  split.
  - intros Hnil. rewrite predict_unfold, q_of_map, Hnil. reflexivity.
  - intros a Ha Hnan. rewrite predict_unfold.
    destruct (np_max_nan (q_of env (Q mem) state) _ (estimate_in_q env _ state a Ha) Hnan)
      as (m & -> & Hm).
    cbn zeta. unfold np_nonzero. rewrite nonzero_from_all_false; [reflexivity|].
    apply Forall_forall. intros b Hb.
    apply list_elem_of_fmap in Hb as (v & -> & _). apply eqb_nan_r, Hm.
Qed.

Lemma predict_failures_witness :
  predict Demo.win_at_once (Demo.draws_from 0) (Hashable Demo.origin) DemoTables.nan_at_origin
  = Raised IndexError.
Proof.
  destruct (predict_failures Demo.win_at_once (Demo.draws_from 0) (Hashable Demo.origin)
              DemoTables.nan_at_origin) as [_ H].
  apply (H MOVE_UP); [apply list_elem_of_In; simpl; tauto | reflexivity].
Defined.

Lemma predict_is_index_of_actua env rnd (percepcio : gmap string state_arg) pos
    (mem : Mem env) a mem' :
  percepcio !! "POS"%string = Some pos ->
  predict env rnd pos mem = Returned (a, mem') ->
  exists i, actions env !! i = Some a /\ actua env rnd percepcio mem = Returned (i, mem').
Proof.
  intros Hpos. unfold actua, predict. rewrite Hpos. intros H.
  apply bind_Returned in H as (qv & mem1 & Hq & H).
  apply bind_Returned in H as (idxs & mem2 & Hidx & H).
  apply bind_Returned in H as (i & mem3 & Hi & H).
  exists i. unfold getitem in H. destruct (actions env !! i) as [a'|] eqn:Ha; [|discriminate].
  injection H as <- <-. split; [reflexivity|].
  rewrite bind_unfold, Hq, bind_unfold, Hidx. exact Hi.
Qed.

(** X3: [actua] needs the key ["POS"] in the percept ([KeyError] otherwise),
    and what it returns is the position, in the action enumeration, of what
    [predict] returns for that state from the same memory: each of the two
    calls returns exactly when the other does. *)
Theorem actua_index_of_predicted_action (env : Environment) (rnd : Entropy)
    (percepcio : gmap string state_arg) (mem : Mem env) :
  (percepcio !! "POS"%string = None ->
   actua env rnd percepcio mem = Raised KeyError) /\
  (forall pos i mem',
     percepcio !! "POS"%string = Some pos ->
     actua env rnd percepcio mem = Returned (i, mem') ->
     (i < length (actions env))%nat /\
     exists a, actions env !! i = Some a /\
               predict env rnd pos mem = Returned (a, mem')) /\
  (forall pos a mem',
     percepcio !! "POS"%string = Some pos ->
     predict env rnd pos mem = Returned (a, mem') ->
     exists i, actions env !! i = Some a /\
               actua env rnd percepcio mem = Returned (i, mem')).
Proof.
  split; [|split].
  - intros Hpos. unfold actua. rewrite Hpos. reflexivity.
  - intros pos i mem' Hpos H.
    destruct (actua_is_index_of_predict env rnd percepcio pos mem i mem' Hpos H)
      as (a & Ha & Hp).
    split; [eapply lookup_lt_Some, Ha | eauto].
  - intros pos a mem' Hpos H. eapply predict_is_index_of_actua; eauto.
Qed.

Lemma actua_index_of_predicted_action_witness :
  exists a, actions Demo.win_at_once !! 2%nat = Some a /\
    returned_value
      (predict Demo.win_at_once (Demo.draws_from 2) (Hashable Demo.origin) Demo.start)
    = Some a.
Proof.
  destruct (actua_index_of_predicted_action Demo.win_at_once (Demo.draws_from 2)
              {[ "POS"%string := Hashable Demo.origin ]} Demo.start) as (_ & H & _).
  assert (Hrun : exists mem',
            actua Demo.win_at_once (Demo.draws_from 2)
              {[ "POS"%string := Hashable Demo.origin ]} Demo.start = Returned (2%nat, mem'))
    by (eexists; vm_compute; reflexivity).
  destruct Hrun as [mem' Hrun].
  destruct (H (Hashable Demo.origin) 2%nat mem' eq_refl Hrun) as (_ & a & Ha & Hp).
  exists a. split; [exact Ha|]. rewrite Hp. reflexivity.
Defined.

(** ** The table during training *)

(** ** The table during training *)

Lemma ensured_idempotent table k : ensured (ensured table k) k = ensured table k.
Proof.
  unfold ensured at 1. rewrite lookup_ensured_same. reflexivity.
Qed.

Lemma lookup_ensured_kept table k k' v :
  table !! k' = Some v -> ensured table k !! k' = Some v.
Proof.
  intros H. unfold ensured. destruct (table !! k) eqn:E; [exact H|].
  rewrite lookup_insert_ne; [exact H|]. intros ->. congruence.
Qed.

(** X4: "(Ensure certainty)" creates the entry when it is missing and changes
    nothing else: afterwards the key is present, every stored value and every
    estimate is what it was, and a second call has no effect. *)
Theorem ensure_creates_without_changing (env : Environment) (k : Key * Action)
    (mem : Mem env) :
  exists mem',
    ensure env k mem = Returned (tt, mem') /\
    is_Some (Q mem' !! k) /\
    (forall state a, estimate (Q mem') state a = estimate (Q mem) state a) /\
    (forall k' v, Q mem !! k' = Some v -> Q mem' !! k' = Some v) /\
    world mem' = world mem /\
    ensure env k mem' = Returned (tt, mem').
Proof.
  exists (with_Q (ensured (Q mem) k) mem). split; [apply ensure_unfold|].
  cbn [Q with_Q world]. split; [rewrite lookup_ensured_same; eauto|].
  split; [intros; apply estimate_ensured|]. split; [intros; apply lookup_ensured_kept; auto|].
  split; [reflexivity|].
  rewrite ensure_unfold. cbn [Q with_Q]. rewrite ensured_idempotent. reflexivity.
Qed.

Lemma ensure_creates_without_changing_witness :
  exists mem' : Mem Demo.win_at_once,
    Q mem' !! (Demo.origin, MOVE_UP) = Some 0%float /\
    Q mem' !! (Demo.origin, MOVE_DOWN) = Some 5%float.
Proof.
  destruct (ensure_creates_without_changing Demo.win_at_once (Demo.origin, MOVE_UP)
              Demo.scenario_B) as (mem' & _ & _ & _ & Hkept & _).
  exists mem'. split; apply Hkept; reflexivity.
Defined.

Section TableGrowth.
Context (env : Environment) (rnd : Entropy).
Implicit Types (mem : Mem env) (l : Locals).

Lemma skip_occupied_inv fuel : forall pos mem pos' mem',
  skip_occupied env fuel pos mem = Returned (pos', mem') ->
  mem' = mem /\ exists cell, maze_at pos' = Some cell /\ cell <> 1%Z.
Proof.
  induction fuel as [|fuel IH]; intros pos mem pos' mem'; cbn [skip_occupied];
    destruct (maze_at pos) as [cell|] eqn:Hcell; try discriminate;
    destruct (Z.eqb_spec cell 1) as [->|Hne]; try discriminate.
  - intros [= <- <-]. eauto.
  - apply IH.
  - intros [= <- <-]. eauto.
Qed.

Lemma environment_reset_Q pos mem state mem' :
  environment_reset env pos mem = Returned (state, mem') -> Q mem' = Q mem.
Proof.
  unfold environment_reset. destruct (reset env pos (world mem)). intros [= <- <-]. reflexivity.
Qed.

Lemma td_step_dom d e lr state a c mem ns na c' st mem' :
  td_step env rnd d e lr state a c mem = Returned ((ns, na, c', st), mem') ->
  dom (Q mem') = {[ (state, a) ]} ∪ ({[ (ns, na) ]} ∪ dom (Q mem)).
Proof.
  intros H. apply td_step_inv in H as (r & w' & _ & _ & _ & ->).
  cbn [Q with_Q]. rewrite dom_insert_L. f_equal.
  unfold ensured. destruct (Q mem !! (ns, na)) eqn:E.
  - apply elem_of_dom_2 in E. set_solver.
  - apply dom_insert_L.
Qed.

Lemma episode_loop_dom fuel d e lr : forall state a c mem r mem',
  episode_loop env rnd fuel d e lr state a c mem = Returned (r, mem') ->
  dom (Q mem) ⊆ dom (Q mem').
Proof.
  induction fuel as [|fuel IH]; intros state a c mem r mem'; cbn [episode_loop];
    [discriminate|].
  intros H. apply bind_Returned in H as ([[[ns na] c1] st1] & mem1 & Hstep & H).
  apply td_step_dom in Hstep.
  destruct (is_terminal st1).
  - injection H as <- <-. set_solver.
  - apply IH in H. set_solver.
Qed.

Lemma episode_body_dom fuel d lr l n mem l' mem' :
  episode_body env rnd fuel d lr l n mem = Returned (l', mem') ->
  dom (Q mem) ⊆ dom (Q mem').
Proof.
  unfold episode_body. intros H.
  apply bind_Returned in H as (state & mem1 & H1 & H).
  apply bind_Returned in H as (action & mem2 & H2 & H).
  apply bind_Returned in H as (u & mem3 & H3 & H).
  apply bind_Returned in H as ([c st] & mem4 & H4 & H).
  apply bind_Returned in H as ([x' y'] & mem5 & H5 & H).
  injection H as <- <-.
  apply environment_reset_Q in H1. apply choose_action_inv in H2 as [_ ->].
  rewrite ensure_unfold in H3. injection H3 as <- <-.
  apply episode_loop_dom in H4. apply skip_occupied_inv in H5 as [-> _].
  cbn [Q with_Q after_choice after_random] in H4.
  assert (dom (Q mem1) ⊆ dom (ensured (Q mem1) (state, action))).
  { intros k Hk. apply elem_of_dom in Hk as [v Hv]. apply elem_of_dom.
    eauto using lookup_ensured_kept. }
  rewrite <- H1. set_solver.
Qed.

Lemma for_each_episodes_dom fuel d lr items : forall l mem l' mem',
  for_each env (episode_body env rnd fuel d lr) l items mem = Returned (l', mem') ->
  dom (Q mem) ⊆ dom (Q mem').
Proof.
  induction items as [|n items IH]; intros l mem l' mem'; cbn [for_each].
  - intros [= <- <-]. reflexivity.
  - intros H. apply bind_Returned in H as (l1 & mem1 & H1 & H).
    apply episode_body_dom in H1. apply IH in H. set_solver.
Qed.

(** X5: training never removes an entry of the table. A step adds at most the
    two keys it touches, and every key present before [train] is present when
    it returns. *)
Theorem train_keeps_every_key :
  (forall d e lr state a c mem ns na c' st mem',
     td_step env rnd d e lr state a c mem = Returned ((ns, na, c', st), mem') ->
     dom (Q mem') = {[ (state, a) ]} ∪ ({[ (ns, na) ]} ∪ dom (Q mem))) /\
  (forall fuel d e lr episodes sac mem r mem',
     train env rnd fuel d e lr episodes sac mem = Returned (r, mem') ->
     dom (Q mem) ⊆ dom (Q mem')).
Proof.
  split; [intros; eapply td_step_dom; eauto|].
  intros fuel d e lr episodes sac mem r mem'. unfold train, train_loop. intros H.
  apply bind_Returned in H as (l & mem1 & Hl & H).
  apply for_each_episodes_dom in Hl.
  destruct (episode l); [|discriminate]. injection H as <- <-. exact Hl.
Qed.

(** ** No [KeyError] *)

Lemma choose_action_no_KeyError e state mem :
  choose_action env rnd e state mem <> Raised KeyError.
Proof.
  unfold choose_action. rewrite bind_unfold. unfold np_random_random at 1.
  destruct (_ <? _)%float.
  - unfold random_choice. destruct (_ !! _); discriminate.
  - rewrite predict_unfold. destruct (np_max _); [|discriminate]. cbn zeta.
    destruct (_ !! _) as [i|]; [|discriminate]. destruct (actions env !! i); discriminate.
Qed.

Lemma td_step_no_KeyError d e lr state a c mem :
  is_Some (Q mem !! (state, a)) ->
  td_step env rnd d e lr state a c mem <> Raised KeyError.
Proof.
  intros [v Hv]. rewrite td_step_unfold.
  destruct (_aplica env a (world mem)) as [[[ns r] st] w'].
  pose proof (choose_action_no_KeyError e ns (after_aplica w' mem)) as Hc.
  destruct (choose_action env rnd e ns (after_aplica w' mem)) as [[na mem2]|err|] eqn:E;
    [|congruence|discriminate].
  apply choose_action_inv in E as [_ ->]. cbn [Q after_choice after_random after_aplica].
  rewrite (lookup_ensured_kept _ _ _ _ Hv). discriminate.
Qed.

Lemma episode_loop_no_KeyError fuel d e lr : forall state a c mem,
  is_Some (Q mem !! (state, a)) ->
  episode_loop env rnd fuel d e lr state a c mem <> Raised KeyError.
Proof.
  induction fuel as [|fuel IH]; intros state a c mem Hkey; cbn [episode_loop];
    [discriminate|].
  rewrite bind_unfold.
  pose proof (td_step_no_KeyError d e lr state a c mem Hkey) as Hstep.
  destruct (td_step env rnd d e lr state a c mem) as [[[[[ns na] c1] st1] mem1]|err|] eqn:E;
    [|congruence|discriminate].
  destruct (is_terminal st1); [discriminate|].
  apply IH. apply td_step_dom in E. apply elem_of_dom. rewrite E. set_solver.
Qed.

Lemma skip_occupied_no_KeyError fuel : forall pos mem,
  skip_occupied env fuel pos mem <> Raised KeyError.
Proof.
  induction fuel as [|fuel IH]; intros pos mem; cbn [skip_occupied];
    destruct (maze_at pos) as [cell|]; try discriminate;
    destruct (cell =? 1)%Z; try discriminate. apply IH.
Qed.

Lemma episode_body_no_KeyError fuel d lr l n mem :
  episode_body env rnd fuel d lr l n mem <> Raised KeyError.
Proof.
  unfold episode_body. rewrite bind_unfold. unfold environment_reset at 1.
  destruct (reset env (x l, y l) (world mem)) as [state w]. rewrite bind_unfold.
  match goal with |- context [choose_action env rnd ?e ?s ?m] =>
    pose proof (choose_action_no_KeyError e s m) as Hc;
    destruct (choose_action env rnd e s m) as [[action mem2]|err|] eqn:E end;
    [|congruence|discriminate].
  rewrite bind_unfold, ensure_unfold, bind_unfold.
  match goal with |- context [episode_loop env rnd fuel d ?e lr ?s ?a ?c ?m] =>
    pose proof (episode_loop_no_KeyError fuel d e lr s a c m) as Hl;
    specialize (Hl ltac:(cbn [Q with_Q]; rewrite lookup_ensured_same; eauto));
    destruct (episode_loop env rnd fuel d e lr s a c m) as [[[c' st] mem4]|err|] end;
    [|congruence|discriminate].
  rewrite bind_unfold.
  match goal with |- context [skip_occupied env fuel ?p ?m] =>
    pose proof (skip_occupied_no_KeyError fuel p m) as Hs;
    destruct (skip_occupied env fuel p m) as [[[x' y'] mem5]|err|] end;
    [discriminate|congruence|discriminate].
Qed.

Lemma for_each_episodes_no_KeyError fuel d lr items : forall l mem,
  for_each env (episode_body env rnd fuel d lr) l items mem <> Raised KeyError.
Proof.
  induction items as [|n items IH]; intros l mem; cbn [for_each]; [discriminate|].
  rewrite bind_unfold.
  pose proof (episode_body_no_KeyError fuel d lr l n mem) as Hb.
  destruct (episode_body env rnd fuel d lr l n mem) as [[l1 mem1]|err|];
    [apply IH|congruence|discriminate].
Qed.

(** X6: [train] never raises [KeyError]: every key read by the update of
    lines 284-286 has been ensured before, whatever the environment, the
    draws and the table the agent starts with. *)
Theorem train_never_raises_KeyError fuel d e lr episodes sac mem :
  train env rnd fuel d e lr episodes sac mem <> Raised KeyError.
Proof.
  unfold train, train_loop. rewrite bind_unfold.
  pose proof (for_each_episodes_no_KeyError fuel d lr (seqZ 1 episodes)
                (initial_locals e) mem) as Hl.
  destruct (for_each _ _ _ _ _) as [[l mem1]|err|]; [|congruence|discriminate].
  destruct (episode l); discriminate.
Qed.

End TableGrowth.

Lemma train_keeps_every_key_witness :
  exists r mem',
    train Demo.win_at_once (Demo.draws_from 0) 5 0.9 0.5 0.5 1 false Demo.scenario_B
    = Returned (r, mem') /\
    dom (Q Demo.scenario_B) ⊆ dom (Q mem').
Proof.
  assert (Hrun : exists r mem',
            train Demo.win_at_once (Demo.draws_from 0) 5 0.9 0.5 0.5 1 false Demo.scenario_B
            = Returned (r, mem'))
    by (eexists _, _; vm_compute; reflexivity).
  destruct Hrun as (r & mem' & Hrun).
  destruct (train_keeps_every_key Demo.win_at_once (Demo.draws_from 0)) as [_ H].
  exists r, mem'. split; [exact Hrun|]. exact (H _ _ _ _ _ _ _ _ _ Hrun).
Defined.

(** ** The start cells of the episodes *)

Section Sweep.
Context (env : Environment) (rnd : Entropy).
Implicit Types (mem : Mem env) (l : Locals).

Lemma free_cells_length : length free_cells = 43%nat.
Proof. reflexivity. Qed.

Ltac sweep_case :=
  let fuel := fresh "fuel" in
  let H := fresh "H" in
  intros fuel ? ? ? H;
  destruct fuel as [|[|[|[|fuel]]]]; vm_compute in H;
  first [discriminate H | injection H as <- <-; split; reflexivity].

(** From a free cell, the loop of lines 311-335 stops at the next free cell
    in row-major order, the first one following the last. *)
Lemma sweep_step i p p' :
  free_cells !! i = Some p ->
  free_cells !! (S i `mod` 43)%nat = Some p' ->
  forall fuel mem pos mem',
    skip_occupied env fuel (next_cell p) mem = Returned (pos, mem') ->
    pos = p' /\ mem' = mem.
Proof.
  intros Hp Hp'.
  do 43 (destruct i as [|i];
         [vm_compute in Hp, Hp'; injection Hp as <-; injection Hp' as <-; sweep_case|]).
  vm_compute in Hp. discriminate.
Qed.

Lemma sweep_step_returns i p p' :
  free_cells !! i = Some p ->
  free_cells !! (S i `mod` 43)%nat = Some p' ->
  forall fuel mem,
    skip_occupied env (S (S (S fuel))) (next_cell p) mem = Returned (p', mem).
Proof.
  intros Hp Hp'.
  do 43 (destruct i as [|i];
         [vm_compute in Hp, Hp'; injection Hp as <-; injection Hp' as <-;
          intros fuel mem; destruct fuel; reflexivity|]).
  vm_compute in Hp. discriminate.
Qed.

Lemma episode_body_sweep fuel d lr l n mem l' mem' i :
  free_cells !! i = Some (x l, y l) ->
  episode_body env rnd fuel d lr l n mem = Returned (l', mem') ->
  free_cells !! (S i `mod` 43)%nat = Some (x l', y l').
Proof.
  intros Hi. unfold episode_body. intros H.
  apply bind_Returned in H as (state & mem1 & _ & H).
  apply bind_Returned in H as (action & mem2 & _ & H).
  apply bind_Returned in H as (u & mem3 & _ & H).
  apply bind_Returned in H as ([c st] & mem4 & _ & H).
  apply bind_Returned in H as ([x' y'] & mem5 & H5 & H).
  injection H as <- <-. cbn [x y].
  destruct (lookup_lt_is_Some_2 free_cells (S i `mod` 43)%nat) as [p' Hp'].
  { rewrite free_cells_length. apply Nat.mod_upper_bound. lia. }
  destruct (sweep_step i _ p' Hi Hp' fuel mem4 (x', y') mem5 H5) as [-> _]. exact Hp'.
Qed.

Lemma for_each_episodes_sweep fuel d lr items : forall l mem l' mem' i,
  free_cells !! i = Some (x l, y l) ->
  for_each env (episode_body env rnd fuel d lr) l items mem = Returned (l', mem') ->
  free_cells !! ((i + length items) `mod` 43)%nat = Some (x l', y l').
Proof.
  induction items as [|n items IH]; intros l mem l' mem' i Hi; cbn [for_each length].
  - intros [= <- <-]. rewrite Nat.add_0_r, Nat.mod_small; [exact Hi|].
    apply lookup_lt_Some in Hi. rewrite free_cells_length in Hi. exact Hi.
  - intros H. apply bind_Returned in H as (l1 & mem1 & H1 & H).
    apply (episode_body_sweep _ _ _ _ _ _ _ _ i Hi) in H1.
    apply (IH _ _ _ _ _ H1) in H.
    rewrite Nat.Div0.add_mod_idemp_l in H.
    replace (i + S (length items))%nat with (S i + length items)%nat by lia. exact H.
Qed.

(** X7: the start cell sweeps the free cells of the grid in row-major order
    and starts again after the last one: when the loop has run [k] episodes,
    the cell for the next one is the free cell of rank [k] modulo their
    number (43). So every episode starts on a free cell, and every free cell
    serves once in 43 consecutive episodes. *)
Theorem start_cell_follows_free_cells fuel d e lr k mem l mem' :
  train_loop env rnd fuel d e lr k mem = Returned (l, mem') ->
  free_cells !! (Z.to_nat k `mod` length free_cells)%nat = Some (x l, y l) /\
  maze_at (x l, y l) = Some 0%Z.
Proof.
  unfold train_loop. intros H.
  apply (for_each_episodes_sweep _ _ _ _ _ _ _ _ 0%nat) in H; [|reflexivity].
  rewrite length_seqZ in H. cbn [Nat.add] in H. rewrite free_cells_length.
  split; [exact H|].
  apply list_elem_of_lookup_2 in H. apply list_elem_of_filter in H. tauto.
Qed.

(** X8: from a free cell, the search for the next start cell (lines 311-335)
    ends after at most three occupied cells, on the next free cell in
    row-major order (the first one after the last), and it raises nothing. *)
Theorem next_start_cell_found i p fuel mem :
  free_cells !! i = Some p ->
  exists p',
    free_cells !! (S i `mod` length free_cells)%nat = Some p' /\
    skip_occupied env (S (S (S fuel))) (next_cell p) mem = Returned (p', mem).
Proof.
  intros Hp. rewrite free_cells_length.
  destruct (lookup_lt_is_Some_2 free_cells (S i `mod` 43)%nat) as [p' Hp'].
  { rewrite free_cells_length. apply Nat.mod_upper_bound. lia. }
  exists p'. split; [exact Hp'|]. eapply sweep_step_returns; eauto.
Qed.

End Sweep.

Lemma start_cell_follows_free_cells_witness :
  exists l : Locals, (x l, y l) = (3, 0)%Z /\ maze_at (x l, y l) = Some 0%Z.
Proof.
  assert (Hrun : exists l mem',
            train_loop Demo.win_at_once (Demo.draws_from 0) 1 0.9 0.5 0.5 2 Demo.start
            = Returned (l, mem'))
    by (eexists _, _; vm_compute; reflexivity).
  destruct Hrun as (l & mem' & Hrun).
  destruct (start_cell_follows_free_cells _ _ _ _ _ _ _ _ _ _ Hrun) as [Hcell Hfree].
  exists l. split; [|exact Hfree].
  assert (E : free_cells !! (Z.to_nat 2 `mod` length free_cells)%nat = Some (3, 0)%Z)
    by reflexivity.
  rewrite E in Hcell. injection Hcell as Hx Hy. rewrite <- Hx, <- Hy. reflexivity.
Defined.

Lemma next_start_cell_found_witness :
  skip_occupied Demo.win_at_once 3 (next_cell (4, 5)%Z) Demo.start
  = Returned ((0, 6)%Z, Demo.start).
Proof.
  destruct (next_start_cell_found Demo.win_at_once 30%nat (4, 5)%Z 0%nat Demo.start eq_refl)
    as (p' & Hp' & Hrun).
  assert (E : free_cells !! (31 `mod` length free_cells)%nat = Some (0, 6)%Z) by reflexivity.
  rewrite E in Hp'. injection Hp' as <-. exact Hrun.
Defined.

(** ** The report of [print_Q] *)

Lemma elem_of_table_states (table : gmap (Key * Action) float) s :
  s ∈ table_states table <-> exists a, is_Some (table !! (s, a)).
Proof.
  unfold table_states. rewrite elem_of_map. split.
  - intros ([s' a] & -> & H). exists a. apply elem_of_dom in H. exact H.
  - intros (a & H). exists (s, a). split; [reflexivity|]. apply elem_of_dom, H.
Qed.

Lemma table_states_empty (table : gmap (Key * Action) float) :
  table_states table = ∅ <-> table = ∅.
Proof.
  split.
  - intros H. apply map_empty. intros [s a].
    destruct (table !! (s, a)) eqn:E; [|reflexivity].
    assert (Hs : s ∈ table_states table) by (apply elem_of_table_states; eauto).
    rewrite H in Hs. set_solver.
  - intros ->. unfold table_states. rewrite dom_empty_L. set_solver.
Qed.

Lemma foldl_Z_min_spec rest : forall v,
  foldl Z.min v rest ∈ v :: rest /\ forall u, u ∈ v :: rest -> (foldl Z.min v rest <= u)%Z.
Proof.
  induction rest as [|w rest IH]; intros v; cbn [foldl].
  - split; [apply list_elem_of_here|]. intros u Hu. apply list_elem_of_singleton in Hu. lia.
  - destruct (IH (Z.min v w)) as [Hin Hle]. split.
    + apply elem_of_cons in Hin as [->|Hin].
      * destruct (Z.min_spec v w) as [[_ ->]|[_ ->]];
          [apply list_elem_of_here | apply list_elem_of_further, list_elem_of_here].
      * do 2 apply list_elem_of_further. exact Hin.
    + intros u Hu. pose proof (Hle (Z.min v w) (list_elem_of_here _ _)) as H0.
      apply elem_of_cons in Hu as [->|Hu]; [lia|].
      apply elem_of_cons in Hu as [->|Hu]; [lia|].
      apply Hle. apply list_elem_of_further, Hu.
Qed.

Lemma foldl_Z_max_spec rest : forall v,
  foldl Z.max v rest ∈ v :: rest /\ forall u, u ∈ v :: rest -> (u <= foldl Z.max v rest)%Z.
Proof.
  induction rest as [|w rest IH]; intros v; cbn [foldl].
  - split; [apply list_elem_of_here|]. intros u Hu. apply list_elem_of_singleton in Hu. lia.
  - destruct (IH (Z.max v w)) as [Hin Hle]. split.
    + apply elem_of_cons in Hin as [->|Hin].
      * destruct (Z.max_spec v w) as [[_ ->]|[_ ->]];
          [apply list_elem_of_further, list_elem_of_here | apply list_elem_of_here].
      * do 2 apply list_elem_of_further. exact Hin.
    + intros u Hu. pose proof (Hle (Z.max v w) (list_elem_of_here _ _)) as H0.
      apply elem_of_cons in Hu as [->|Hu]; [lia|].
      apply elem_of_cons in Hu as [->|Hu]; [lia|].
      apply Hle. apply list_elem_of_further, Hu.
Qed.

Lemma min_int_spec l m :
  min_int l = Some m -> m ∈ l /\ forall u, u ∈ l -> (m <= u)%Z.
Proof. destruct l; [discriminate|]. intros [= <-]. apply foldl_Z_min_spec. Qed.

Lemma max_int_spec l m :
  max_int l = Some m -> m ∈ l /\ forall u, u ∈ l -> (u <= m)%Z.
Proof. destruct l; [discriminate|]. intros [= <-]. apply foldl_Z_max_spec. Qed.

Lemma py_max_cases a b : py_max a b = a \/ py_max a b = b.
Proof. unfold py_max. destruct (_ <? _)%float; auto. Qed.

Lemma py_max_upper a b :
  is_nan a = false -> is_nan b = false ->
  (a <=? py_max a b)%float = true /\ (b <=? py_max a b)%float = true.
Proof.
  intros Ha Hb. unfold py_max. destruct (a <? b)%float eqn:E.
  - split; [apply ltb_leb, E | apply leb_refl, Hb].
  - split; [apply leb_refl, Ha|]. apply leb_iff. repeat split; auto.
    intros Hlt. assert ((a <? b)%float = true) by (apply ltb_iff; auto). congruence.
Qed.

Lemma foldl_py_max_in rest : forall a, foldl py_max a rest ∈ a :: rest.
Proof.
  induction rest as [|b rest IH]; intros a; cbn [foldl].
  - apply list_elem_of_here.
  - specialize (IH (py_max a b)). apply elem_of_cons in IH as [->|IH].
    + destruct (py_max_cases a b) as [->| ->];
        [apply list_elem_of_here | apply list_elem_of_further, list_elem_of_here].
    + do 2 apply list_elem_of_further. exact IH.
Qed.

Lemma foldl_py_max_upper rest : forall a,
  Forall (fun v => is_nan v = false) (a :: rest) ->
  forall v, v ∈ a :: rest -> (v <=? foldl py_max a rest)%float = true.
Proof.
  induction rest as [|b rest IH]; intros a Hnan v Hv; cbn [foldl].
  - apply list_elem_of_singleton in Hv as ->. apply leb_refl.
    inversion Hnan; assumption.
  - inversion Hnan as [|? ? Ha Hrest]; subst. inversion Hrest as [|? ? Hb Hrest']; subst.
    destruct (py_max_upper a b Ha Hb) as [Hla Hlb].
    assert (Hnan' : Forall (fun v => is_nan v = false) (py_max a b :: rest)).
    { constructor; [|exact Hrest']. destruct (py_max_cases a b) as [->| ->]; assumption. }
    pose proof (IH _ Hnan' (py_max a b) (list_elem_of_here _ _)) as Hab.
    apply elem_of_cons in Hv as [->|Hv]; [eapply leb_trans; eassumption|].
    apply elem_of_cons in Hv as [->|Hv]; [eapply leb_trans; eassumption|].
    apply (IH _ Hnan'). apply list_elem_of_further, Hv.
Qed.

Lemma max_float_in l m : max_float l = Some m -> m ∈ l.
Proof. destruct l; [discriminate|]. intros [= <-]. apply foldl_py_max_in. Qed.

Lemma max_float_upper l m :
  max_float l = Some m -> Forall (fun v => is_nan v = false) l ->
  forall v, v ∈ l -> (v <=? m)%float = true.
Proof. destruct l; [discriminate|]. intros [= <-]. apply foldl_py_max_upper. Qed.

Lemma elem_of_dict_keys l a : a ∈ dict_keys l <-> a ∈ l.
Proof.
  induction l as [|b l IH]; cbn [dict_keys]; [reflexivity|].
  rewrite !elem_of_cons, list_elem_of_filter, IH.
  destruct (decide (a = b)); intuition congruence.
Qed.

Lemma dict_keys_nil l : dict_keys l = [] <-> l = [].
Proof. destruct l; cbn [dict_keys]; split; intros; congruence. Qed.

(** *** Writing into the matrices *)

Lemma np_index_in_range n i :
  (0 <= i < n)%Z -> np_index n i = Some (Z.to_nat i).
Proof.
  intros H. unfold np_index.
  destruct (Z.leb_spec 0 i), (Z.ltb_spec i n); cbn [andb]; (reflexivity || lia).
Qed.

Lemma has_shape_replicate {A} (v : A) h w : has_shape (replicate h (replicate w v)) h w.
Proof.
  split; [apply length_replicate|]. apply Forall_forall. intros row Hrow.
  apply elem_of_replicate in Hrow as [-> _]. apply length_replicate.
Qed.

Lemma entry_replicate {A} (v : A) h w i j :
  (i < h)%nat -> (j < w)%nat -> entry (replicate h (replicate w v)) i j = Some v.
Proof.
  intros Hi Hj. unfold entry. rewrite lookup_replicate_2 by exact Hi. cbn.
  apply lookup_replicate_2, Hj.
Qed.

Lemma matrix_set_spec {A} (m : list (list (option A))) h w (i j : Z) v :
  has_shape m h w -> (0 <= i < Z.of_nat h)%Z -> (0 <= j < Z.of_nat w)%Z ->
  exists m',
    matrix_set m i j v = Some m' /\ has_shape m' h w /\
    entry m' (Z.to_nat i) (Z.to_nat j) = Some (Some v) /\
    forall i' j', (i', j') <> (Z.to_nat i, Z.to_nat j) -> entry m' i' j' = entry m i' j'.
Proof.
  intros [Hh Hw] Hi Hj. unfold matrix_set.
  rewrite np_index_in_range by lia. cbn [mbind option_bind].
  destruct (lookup_lt_is_Some_2 m (Z.to_nat i)) as [row Hrow]; [lia|].
  rewrite Hrow. cbn [mbind option_bind].
  assert (Hlen : length row = w).
  { eapply Forall_forall in Hw; [exact Hw|]. eapply list_elem_of_lookup_2, Hrow. }
  rewrite np_index_in_range by lia. cbn [mbind option_bind].
  eexists. split; [reflexivity|]. split; [|split].
  - split; [rewrite length_insert; exact Hh|].
    apply Forall_forall. intros r Hr.
    apply list_elem_of_lookup_1 in Hr as [k Hk].
    destruct (decide (k = Z.to_nat i)) as [->|Hne].
    + rewrite list_lookup_insert_eq in Hk by lia. injection Hk as <-.
      rewrite length_insert. exact Hlen.
    + rewrite list_lookup_insert_ne in Hk by congruence.
      eapply Forall_forall in Hw; [exact Hw|]. eapply list_elem_of_lookup_2, Hk.
  - unfold entry. rewrite list_lookup_insert_eq by lia. cbn [mbind option_bind].
    apply list_lookup_insert_eq. lia.
  - intros i' j' Hne. unfold entry.
    destruct (decide (i' = Z.to_nat i)) as [->|Hi'].
    + rewrite list_lookup_insert_eq by lia. rewrite Hrow. cbn [mbind option_bind].
      apply list_lookup_insert_ne. congruence.
    + rewrite list_lookup_insert_ne by congruence. reflexivity.
Qed.

Section ReportLoop.
Context (env : Environment) (rnd : Entropy).
Implicit Types (mem : Mem env).

Lemma print_Q_state_inv min_x min_y qm pm state mem qm' pm' mem' :
  print_Q_state env rnd min_x min_y (qm, pm) state mem = Returned ((qm', pm'), mem') ->
  exists x y value symbol,
    state = [x; y] /\ reported env (Q mem) state value symbol /\
    matrix_set qm (y - min_y) (x - min_x) value = Some qm' /\
    matrix_set pm (y - min_y) (x - min_x) symbol = Some pm' /\
    mem' = after_states 1 mem.
Proof.
  unfold print_Q_state.
  destruct state as [|x [|y [|z rest]]]; try discriminate.
  rewrite bind_unfold. unfold get_Q at 1. rewrite map_map. cbn [snd].
  unfold reported, after_states.
  destruct (max_float (map (fun a => estimate (Q mem) [x; y] a) (dict_keys (actions env))))
    as [max_q|] eqn:Hmax.
  - rewrite !bind_unfold.
    destruct (random_choice _ _ _ _) as [[best mem1]| |] eqn:Hc; try discriminate.
    apply random_choice_inv in Hc as [Hbest ->].
    apply list_elem_of_fmap in Hbest as ([a v] & -> & Hav).
    apply list_elem_of_filter in Hav as [Heq Hav]. cbn [fst snd] in *.
    apply list_elem_of_In, in_map_iff in Hav as (a' & Hpair & Ha).
    injection Hpair as <- <-.
    apply list_elem_of_In in Ha. apply (proj1 (elem_of_dict_keys _ _)) in Ha.
    cbn [mret M_ret].
    destruct (matrix_set qm _ _ _) as [qm1|] eqn:Hq; [|discriminate].
    destruct (matrix_set pm _ _ _) as [pm1|] eqn:Hp; [|discriminate].
    intros [= <- <- <-]. exists x, y, max_q, (_action_to_symbol (Member a')).
    split; [reflexivity|]. split; [split; [reflexivity | eauto]|].
    split; [exact Hq|]. split; [exact Hp|].
    case_decide as Hnil; [rewrite Hnil in Ha; inversion Ha|]. reflexivity.
  - rewrite bind_unfold. cbn [mret M_ret].
    destruct (matrix_set qm _ _ _) as [qm1|] eqn:Hq; [|discriminate].
    destruct (matrix_set pm _ _ _) as [pm1|] eqn:Hp; [|discriminate].
    intros [= <- <- <-]. exists x, y, 0%float, (_action_to_symbol (NotAnAction "-")).
    split; [reflexivity|]. split; [split; reflexivity|].
    split; [exact Hq|]. split; [exact Hp|].
    case_decide as Hnil; [destruct mem; reflexivity|].
    destruct (actions env) as [|a l] eqn:E; [congruence|]. discriminate Hmax.
Qed.

Section Bounds.
Context (table : gmap (Key * Action) float) (min_x max_x min_y max_y : Z).

Lemma position_inj x y x' y' :
  in_box min_x max_x min_y max_y x y -> in_box min_x max_x min_y max_y x' y' ->
  (row_of min_y y', column_of min_x x') = (row_of min_y y, column_of min_x x) ->
  x' = x /\ y' = y.
Proof. unfold in_box, row_of, column_of. intros ? ? [= ? ?]. lia. Qed.

(** The loop of lines 123-147 fills the cell of each state it meets and
    leaves the other cells as they are. *)
Lemma report_loop todo : forall done qm pm mem qm' pm' mem',
  Q mem = table ->
  filled env table min_x max_x min_y max_y done qm pm ->
  (forall s, s ∈ todo -> forall x y, s !! 0%nat = Some x -> s !! 1%nat = Some y ->
     in_box min_x max_x min_y max_y x y) ->
  for_each env (print_Q_state env rnd min_x min_y) (qm, pm) todo mem
    = Returned ((qm', pm'), mem') ->
  filled env table min_x max_x min_y max_y (done ++ todo) qm' pm' /\
  Forall (fun s => length s = 2%nat) todo /\
  mem' = after_states (length todo) mem.
Proof.
  induction todo as [|s todo IH]; intros done qm pm mem qm' pm' mem' HQ Hfill Hbox;
    cbn [for_each].
  - intros [= <- <- <-]. rewrite app_nil_r. split; [exact Hfill|]. split; [constructor|].
    unfold after_states. cbn [length]. case_decide; destruct mem; reflexivity.
  - intros H. apply bind_Returned in H as ([qm1 pm1] & mem1 & Hs & H).
    apply print_Q_state_inv in Hs as (x & y & value & symbol & -> & Hrep & Hq & Hp & ->).
    assert (Hxy : in_box min_x max_x min_y max_y x y).
    { apply (Hbox [x; y]); [apply list_elem_of_here | reflexivity | reflexivity]. }
    destruct Hfill as (Hsq & Hsp & Hdone & Hrest).
    assert (Hi : (0 <= y - min_y < Z.of_nat (Z.to_nat (max_y - min_y + 1)))%Z)
      by (unfold in_box in Hxy; lia).
    assert (Hj : (0 <= x - min_x < Z.of_nat (Z.to_nat (max_x - min_x + 1)))%Z)
      by (unfold in_box in Hxy; lia).
    destruct (matrix_set_spec qm _ _ _ _ value Hsq Hi Hj) as (qm2 & Hq2 & Hsq2 & Hnew_q & Hold_q).
    destruct (matrix_set_spec pm _ _ _ _ symbol Hsp Hi Hj) as (pm2 & Hp2 & Hsp2 & Hnew_p & Hold_p).
    rewrite Hq in Hq2. injection Hq2 as <-. rewrite Hp in Hp2. injection Hp2 as <-.
    fold (row_of min_y y) (column_of min_x x) in Hnew_q, Hnew_p, Hold_q, Hold_p.
    assert (Hfill1 : filled env table min_x max_x min_y max_y (done ++ [[x; y]]) qm1 pm1).
    { split; [exact Hsq2|]. split; [exact Hsp2|]. split.
      - intros x' y' Hbox' Hin.
        destruct (decide ((row_of min_y y', column_of min_x x')
                          = (row_of min_y y, column_of min_x x))) as [E|E].
        + destruct (position_inj _ _ _ _ Hxy Hbox' E) as [-> ->].
          exists value, symbol. rewrite <- HQ. auto.
        + apply elem_of_app in Hin as [Hin|Hin].
          * destruct (Hdone x' y' Hbox' Hin) as (v' & s' & Hv' & Hs' & Hr').
            exists v', s'. rewrite Hold_q, Hold_p by exact E. auto.
          * apply list_elem_of_singleton in Hin. injection Hin as -> ->. congruence.
      - intros x' y' Hbox' Hnin.
        assert (E : (row_of min_y y', column_of min_x x')
                    <> (row_of min_y y, column_of min_x x)).
        { intros E. destruct (position_inj _ _ _ _ Hxy Hbox' E) as [-> ->].
          apply Hnin, elem_of_app. right. apply list_elem_of_here. }
        rewrite Hold_q, Hold_p by exact E. apply Hrest; [exact Hbox'|].
        intros Hin. apply Hnin, elem_of_app. left. exact Hin. }
    apply (IH (done ++ [[x; y]])) in H; [|exact HQ|exact Hfill1|].
    + destruct H as (Hfill' & Hlen & ->). rewrite <- app_assoc in Hfill'. cbn [app] in Hfill'.
      split; [exact Hfill'|]. split; [constructor; [reflexivity|exact Hlen]|].
      unfold after_states. cbn [length Q world np_used py_used].
      case_decide; f_equal; lia.
    + intros s Hs. apply Hbox. apply list_elem_of_further, Hs.
Qed.

End Bounds.

End ReportLoop.

Lemma entry_map {A B} (f : A -> B) (m : list (list A)) i j :
  entry (map (map f) m) i j = f <$> entry m i j.
Proof.
  unfold entry. change (map (map f) m) with (map f <$> m).
  rewrite list_lookup_fmap. destruct (m !! i) as [row|]; [|reflexivity].
  cbn. change (map f row) with (f <$> row). apply list_lookup_fmap.
Qed.

Lemma has_shape_map {A B} (f : A -> B) (m : list (list A)) h w :
  has_shape m h w -> has_shape (map (map f) m) h w.
Proof.
  intros [Hh Hw]. split; [rewrite length_map; exact Hh|].
  apply Forall_forall. intros row Hrow.
  apply list_elem_of_In, in_map_iff in Hrow as (r & <- & Hr).
  rewrite length_map. eapply Forall_forall in Hw; [exact Hw|]. apply list_elem_of_In, Hr.
Qed.

Lemma leb_antisym v w :
  (v <=? w)%float = true -> (w <=? v)%float = true -> (v =? w)%float = true.
Proof.
  rewrite !leb_iff, eqb_iff. intros (Hv & Hw & H1) (_ & _ & H2). repeat split; auto.
  destruct (fkey v) as [[a1 a2] a3], (fkey w) as [[b1 b2] b3].
  unfold lex_lt in *. cbn [fst snd] in *. f_equal; [f_equal|]; lia.
Qed.

Lemma eqb_trans u v w :
  (u =? v)%float = true -> (v =? w)%float = true -> (u =? w)%float = true.
Proof.
  rewrite !eqb_iff. intros (Hu & Hv & E1) (_ & Hw & E2). repeat split; auto. congruence.
Qed.

Section Report.
Context (env : Environment) (rnd : Entropy) (set_iter : gset Key -> list Key).
Implicit Types (mem : Mem env).

Lemma lookup_of_mapM (f : Key -> option Z) l k s v :
  mapM f l = Some k -> s ∈ l -> f s = Some v -> v ∈ k.
Proof.
  intros H Hs Hv. apply mapM_Some_1 in H.
  apply list_elem_of_lookup_1 in Hs as [i Hi].
  destruct (Forall2_lookup_l _ _ _ _ _ H Hi) as (v' & Hk & Hv').
  rewrite Hv in Hv'. injection Hv' as <-. eapply list_elem_of_lookup_2, Hk.
Qed.

Lemma elem_of_mapM (f : Key -> option Z) l k v :
  mapM f l = Some k -> v ∈ k -> exists s, s ∈ l /\ f s = Some v.
Proof.
  intros H Hv. apply mapM_Some_1 in H.
  apply list_elem_of_lookup_1 in Hv as [i Hi].
  destruct (Forall2_lookup_r _ _ _ _ _ H Hi) as (s & Hs & Hf).
  exists s. split; [eapply list_elem_of_lookup_2, Hs | exact Hf].
Qed.

(** Everything [print_Q] does when it returns. *)
Lemma print_Q_inv mem p mem' :
  print_Q env rnd set_iter mem = Returned (p, mem') ->
  (Q mem = ∅ /\ p = Q_table_is_empty /\ mem' = mem) \/
  (Q mem <> ∅ /\
   exists min_x max_x min_y max_y qm pm,
     (forall s x y, s ∈ set_iter (table_states (Q mem)) ->
        s !! 0%nat = Some x -> s !! 1%nat = Some y -> in_box min_x max_x min_y max_y x y) /\
     (exists s, s ∈ set_iter (table_states (Q mem)) /\ s !! 0%nat = Some min_x) /\
     (exists s, s ∈ set_iter (table_states (Q mem)) /\ s !! 0%nat = Some max_x) /\
     (exists s, s ∈ set_iter (table_states (Q mem)) /\ s !! 1%nat = Some min_y) /\
     (exists s, s ∈ set_iter (table_states (Q mem)) /\ s !! 1%nat = Some max_y) /\
     filled env (Q mem) min_x max_x min_y max_y (set_iter (table_states (Q mem))) qm pm /\
     Forall (fun s => length s = 2%nat) (set_iter (table_states (Q mem))) /\
     p = Matrices (display_Q qm) (display_Policy pm) /\
     mem' = after_states (length (set_iter (table_states (Q mem)))) mem).
Proof.
  unfold print_Q. rewrite bind_unfold. unfold get_Q at 1.
  case_decide as Hempty.
  { intros [= <- <-]. left. apply table_states_empty in Hempty. auto. }
  intros H. right. split; [rewrite <- table_states_empty; exact Hempty|].
  set (states := set_iter (table_states (Q mem))) in *.
  destruct (mapM (fun s : Key => s !! 0%nat) states) as [xs|] eqn:Hxs; [|discriminate].
  destruct (mapM (fun s : Key => s !! 1%nat) states) as [ys|] eqn:Hys; [|discriminate].
  destruct (min_int xs) as [min_x|] eqn:Hminx; [|discriminate].
  destruct (max_int xs) as [max_x|] eqn:Hmaxx; [|discriminate].
  destruct (min_int ys) as [min_y|] eqn:Hminy; [|discriminate].
  destruct (max_int ys) as [max_y|] eqn:Hmaxy; [|discriminate].
  apply min_int_spec in Hminx as [Hminx_in Hminx], Hminy as [Hminy_in Hminy].
  apply max_int_spec in Hmaxx as [Hmaxx_in Hmaxx], Hmaxy as [Hmaxy_in Hmaxy].
  apply bind_Returned in H as ([qm pm] & mem1 & Hloop & H). injection H as <- <-.
  assert (Hbox : forall s x y, s ∈ states -> s !! 0%nat = Some x -> s !! 1%nat = Some y ->
                   in_box min_x max_x min_y max_y x y).
  { intros s x y Hs Hx Hy. unfold in_box.
    pose proof (lookup_of_mapM _ _ _ _ _ Hxs Hs Hx) as Hxin.
    pose proof (lookup_of_mapM _ _ _ _ _ Hys Hs Hy) as Hyin.
    specialize (Hminx _ Hxin). specialize (Hmaxx _ Hxin).
    specialize (Hminy _ Hyin). specialize (Hmaxy _ Hyin). lia. }
  assert (Hdims : (min_x <= max_x /\ min_y <= max_y)%Z).
  { specialize (Hminx _ Hmaxx_in). specialize (Hminy _ Hmaxy_in). lia. }
  apply (report_loop env rnd (Q mem) min_x max_x min_y max_y states []) in Hloop;
    [|reflexivity| |intros s Hs x y; apply Hbox, Hs].
  - destruct Hloop as (Hfill & Hpairs & ->).
    exists min_x, max_x, min_y, max_y, qm, pm.
    split; [exact Hbox|].
    split; [eapply elem_of_mapM; eauto|]. split; [eapply elem_of_mapM; eauto|].
    split; [eapply elem_of_mapM; eauto|]. split; [eapply elem_of_mapM; eauto|].
    auto.
  - split; [apply has_shape_replicate|]. split; [apply has_shape_replicate|].
    split; [intros x y _ Hin; inversion Hin|].
    intros x y Hxy _. unfold in_box in Hxy. unfold row_of, column_of.
    split; apply entry_replicate; lia.
Qed.

Lemma elem_of_set_iter (states : gset Key) s :
  set_iter states ≡ₚ elements states -> s ∈ set_iter states <-> s ∈ states.
Proof. intros ->. apply elem_of_elements. Qed.

Lemma length_set_iter (states : gset Key) :
  set_iter states ≡ₚ elements states -> length (set_iter states) = size states.
Proof. intros ->. reflexivity. Qed.

Lemma pair_of_length_2 (s : Key) :
  length s = 2%nat -> exists x y, s = [x; y].
Proof. destruct s as [|x [|y [|z s]]]; try discriminate. eauto. Qed.

(** The outcomes of the report loop and of [print_Q]: a result, or one of
    two exceptions. *)
Lemma print_Q_state_outcome min_x min_y ms state mem :
  match print_Q_state env rnd min_x min_y ms state mem with
  | Returned _ => True
  | Raised e => e = IndexError \/ e = ValueError
  | OutOfFuel => False
  end.
Proof.
  unfold print_Q_state. destruct ms as [qm pm].
  destruct state as [|x [|y [|z rest]]]; try (right; reflexivity).
  rewrite bind_unfold. unfold get_Q at 1.
  destruct (max_float _) as [max_q|].
  - rewrite !bind_unfold. unfold random_choice at 1.
    destruct (_ !! _) as [a|]; [|left; reflexivity]. cbn [mret M_ret].
    destruct (matrix_set qm _ _ _); [|left; reflexivity].
    destruct (matrix_set pm _ _ _); [exact I | left; reflexivity].
  - rewrite bind_unfold. cbn [mret M_ret].
    destruct (matrix_set qm _ _ _); [|left; reflexivity].
    destruct (matrix_set pm _ _ _); [exact I | left; reflexivity].
Qed.

Lemma report_loop_outcome min_x min_y todo : forall ms mem,
  match for_each env (print_Q_state env rnd min_x min_y) ms todo mem with
  | Returned _ => True
  | Raised e => e = IndexError \/ e = ValueError
  | OutOfFuel => False
  end.
Proof.
  induction todo as [|s todo IH]; intros ms mem; cbn [for_each]; [exact I|].
  rewrite bind_unfold.
  pose proof (print_Q_state_outcome min_x min_y ms s mem) as H.
  destruct (print_Q_state env rnd min_x min_y ms s mem) as [[ms1 mem1]|e|];
    [apply IH | exact H | exact H].
Qed.

Lemma print_Q_outcome mem :
  match print_Q env rnd set_iter mem with
  | Returned _ => True
  | Raised e => e = IndexError \/ e = ValueError
  | OutOfFuel => False
  end.
Proof.
  unfold print_Q. rewrite bind_unfold. unfold get_Q at 1.
  case_decide as Hempty; [exact I|].
  destruct (mapM _ _); [|left; reflexivity]. destruct (mapM _ _); [|left; reflexivity].
  destruct (min_int _) as [min_x|]; [|right; reflexivity].
  destruct (max_int _); [|right; reflexivity].
  destruct (min_int _) as [min_y|]; [|right; reflexivity].
  destruct (max_int _); [|right; reflexivity].
  rewrite bind_unfold.
  match goal with |- context [for_each env _ ?ms ?todo mem] =>
    pose proof (report_loop_outcome min_x min_y todo ms mem) as H;
    destruct (for_each env (print_Q_state env rnd min_x min_y) ms todo mem)
      as [[[qm pm] mem1]|e|]
  end; [exact I | exact H | exact H].
Qed.

Lemma print_Q_box mem p mem' :
  set_iter (table_states (Q mem)) ≡ₚ elements (table_states (Q mem)) ->
  Q mem <> ∅ ->
  print_Q env rnd set_iter mem = Returned (p, mem') ->
  exists min_x max_x min_y max_y qm pm,
    bounding_box (table_states (Q mem)) min_x max_x min_y max_y /\
    filled env (Q mem) min_x max_x min_y max_y (set_iter (table_states (Q mem))) qm pm /\
    p = Matrices (display_Q qm) (display_Policy pm).
Proof.
  intros Hperm Hne H. apply print_Q_inv in H as [(Hempty & _)|(_ & H)]; [congruence|].
  destruct H as (min_x & max_x & min_y & max_y & qm & pm &
                 Hbox & Hx0 & Hx1 & Hy0 & Hy1 & Hfill & Hpairs & -> & _).
  exists min_x, max_x, min_y, max_y, qm, pm. split; [|auto].
  assert (Hpair : forall s, s ∈ set_iter (table_states (Q mem)) -> exists x y, s = [x; y]).
  { intros s Hs. apply pair_of_length_2. eapply Forall_forall in Hpairs; eauto. }
  unfold bounding_box. split; [|repeat split].
  - intros s Hs. apply (elem_of_set_iter _ _ Hperm) in Hs.
    destruct (Hpair s Hs) as (x & y & ->). exists x, y. split; [reflexivity|].
    apply (Hbox [x; y]); auto.
  - destruct Hx0 as (s & Hs & Hl). destruct (Hpair s Hs) as (x & y & ->).
    injection Hl as ->. exists y. apply (elem_of_set_iter _ _ Hperm), Hs.
  - destruct Hx1 as (s & Hs & Hl). destruct (Hpair s Hs) as (x & y & ->).
    injection Hl as ->. exists y. apply (elem_of_set_iter _ _ Hperm), Hs.
  - destruct Hy0 as (s & Hs & Hl). destruct (Hpair s Hs) as (x & y & ->).
    injection Hl as ->. exists x. apply (elem_of_set_iter _ _ Hperm), Hs.
  - destruct Hy1 as (s & Hs & Hl). destruct (Hpair s Hs) as (x & y & ->).
    injection Hl as ->. exists x. apply (elem_of_set_iter _ _ Hperm), Hs.
Qed.

(** X9: [print_Q] shows the notice for an empty table exactly when the
    table has no entry, and then nothing is drawn or changed. *)
Theorem print_Q_notice_iff_empty mem :
  (Q mem = ∅ -> print_Q env rnd set_iter mem = Returned (Q_table_is_empty, mem)) /\
  (forall p mem', print_Q env rnd set_iter mem = Returned (p, mem') ->
     (p = Q_table_is_empty <-> Q mem = ∅)).
Proof.
  split.
  - intros Hempty. unfold print_Q. rewrite bind_unfold. unfold get_Q at 1.
    rewrite decide_True by (apply table_states_empty, Hempty). reflexivity.
  - intros p mem' H. apply print_Q_inv in H as [(Hempty & -> & _)|(Hne & H)]; [tauto|].
    destruct H as (? & ? & ? & ? & ? & ? & _ & _ & _ & _ & _ & _ & _ & -> & _).
    split; [discriminate | congruence].
Qed.

(** X10: [print_Q] only reads the agent: when it returns, the table, the
    environment and numpy's generator are as before, and [random.choice] has
    been drawn once for each state of the table (not at all when the
    environment has no action). *)
Theorem print_Q_read_only mem p mem' :
  set_iter (table_states (Q mem)) ≡ₚ elements (table_states (Q mem)) ->
  print_Q env rnd set_iter mem = Returned (p, mem') ->
  Q mem' = Q mem /\ world mem' = world mem /\ np_used mem' = np_used mem /\
  py_used mem' =
    ((if decide (actions env = []) then 0 else size (table_states (Q mem))) + py_used mem)%nat.
Proof.
  intros Hperm H. apply print_Q_inv in H as [(Hempty & _ & ->)|(_ & H)].
  - apply table_states_empty in Hempty. rewrite Hempty, size_empty.
    repeat split; auto. case_decide; reflexivity.
  - destruct H as (? & ? & ? & ? & ? & ? & _ & _ & _ & _ & _ & _ & _ & _ & ->).
    rewrite (length_set_iter _ Hperm). repeat split; reflexivity.
Qed.

(** X11: the two matrices of [print_Q]. Every state of the table is a pair
    [(x, y)]; the matrices span the least box around the states, one row for
    each [y] and one column for each [x]; the cell of a state of the table
    holds the greatest of its stored values over the actions of the
    environment and the symbol of an action that has this value; every other
    cell holds the placeholder. *)
Theorem print_Q_grid mem qd pd mem' :
  set_iter (table_states (Q mem)) ≡ₚ elements (table_states (Q mem)) ->
  print_Q env rnd set_iter mem = Returned (Matrices qd pd, mem') ->
  exists min_x max_x min_y max_y,
    bounding_box (table_states (Q mem)) min_x max_x min_y max_y /\
    has_shape qd (Z.to_nat (max_y - min_y + 1)) (Z.to_nat (max_x - min_x + 1)) /\
    has_shape pd (Z.to_nat (max_y - min_y + 1)) (Z.to_nat (max_x - min_x + 1)) /\
    forall x y, in_box min_x max_x min_y max_y x y ->
      ([x; y] ∈ table_states (Q mem) ->
       exists value symbol,
         entry qd (row_of min_y y) (column_of min_x x) = Some (Number value) /\
         entry pd (row_of min_y y) (column_of min_x x) = Some symbol /\
         reported env (Q mem) [x; y] value symbol) /\
      ([x; y] ∉ table_states (Q mem) ->
       entry qd (row_of min_y y) (column_of min_x x) = Some Placeholder /\
       entry pd (row_of min_y y) (column_of min_x x) = Some "-"%string).
Proof.
  intros Hperm H.
  assert (Hne : Q mem <> ∅).
  { intros Hempty. apply print_Q_inv in H as [(_ & Hp & _)|(Hne & _)];
      [discriminate | congruence]. }
  apply (print_Q_box _ _ _ Hperm Hne) in H
    as (min_x & max_x & min_y & max_y & qm & pm & Hbb & Hfill & [= -> ->]).
  destruct Hfill as (Hsq & Hsp & Hdone & Hrest).
  exists min_x, max_x, min_y, max_y. split; [exact Hbb|].
  split; [apply has_shape_map, Hsq|]. split; [apply has_shape_map, Hsp|].
  intros x y Hxy. unfold display_Q, display_Policy. rewrite !entry_map. split.
  - intros Hin. apply (elem_of_set_iter _ _ Hperm) in Hin.
    destruct (Hdone x y Hxy Hin) as (value & symbol & -> & -> & Hrep).
    exists value, symbol. auto.
  - intros Hnin. rewrite <- (elem_of_set_iter _ _ Hperm) in Hnin.
    destruct (Hrest x y Hxy Hnin) as [-> ->]. auto.
Qed.

(** X12: a table with a state that is not a pair is never shown. A state
    with fewer than two coordinates makes [print_Q] raise [IndexError] (at
    [s[0]] or [s[1]]); with any state that is not a pair, [print_Q] raises
    [IndexError] or [ValueError]. *)
Theorem print_Q_needs_pairs mem s a :
  set_iter (table_states (Q mem)) ≡ₚ elements (table_states (Q mem)) ->
  is_Some (Q mem !! (s, a)) ->
  ((length s < 2)%nat -> print_Q env rnd set_iter mem = Raised IndexError) /\
  (length s <> 2%nat ->
   print_Q env rnd set_iter mem = Raised IndexError \/
   print_Q env rnd set_iter mem = Raised ValueError).
Proof.
  intros Hperm Hkey.
  assert (Hs : s ∈ table_states (Q mem)) by (apply elem_of_table_states; eauto).
  split.
  - intros Hlen. unfold print_Q. rewrite bind_unfold. unfold get_Q at 1.
    rewrite decide_False by (intros E; rewrite E in Hs; set_solver).
    apply (elem_of_set_iter _ _ Hperm) in Hs.
    destruct (mapM (fun s : Key => s !! 0%nat) _) as [xs|] eqn:Hxs; [|reflexivity].
    destruct (mapM (fun s : Key => s !! 1%nat) _) as [ys|] eqn:Hys; [|reflexivity].
    exfalso. apply mapM_Some_1 in Hys.
    apply list_elem_of_lookup_1 in Hs as [i Hi].
    destruct (Forall2_lookup_l _ _ _ _ _ Hys Hi) as (v & _ & Hv).
    apply lookup_lt_Some in Hv. lia.
  - intros Hlen.
    pose proof (print_Q_outcome mem) as Hout.
    destruct (print_Q env rnd set_iter mem) as [[p mem']|e|] eqn:H;
      [exfalso | destruct Hout as [-> | ->]; auto | contradiction].
    assert (Hne : Q mem <> ∅).
    { intros E. rewrite E in Hkey. rewrite lookup_empty in Hkey. destruct Hkey; discriminate. }
    apply (print_Q_box _ _ _ Hperm Hne) in H
      as (min_x & max_x & min_y & max_y & qm & pm & (Hpairs & _) & _).
    destruct (Hpairs s Hs) as (x & y & -> & _). apply Hlen. reflexivity.
Qed.


(** X13: the policy matrix shows what [predict] does. For a table without
    NaN and an environment with at least one action, the cell of a state of
    the table holds a value equal to the maximum [predict] computes for this
    state, and the symbol of an action that [predict] returns for this state
    under a suitable draw. *)
Theorem print_Q_shows_greedy_policy mem qd pd mem' :
  set_iter (table_states (Q mem)) ≡ₚ elements (table_states (Q mem)) ->
  nan_free (Q mem) -> actions env <> [] ->
  print_Q env rnd set_iter mem = Returned (Matrices qd pd, mem') ->
  exists min_x max_x min_y max_y,
    bounding_box (table_states (Q mem)) min_x max_x min_y max_y /\
    forall x y, [x; y] ∈ table_states (Q mem) ->
      exists value a m,
        entry qd (row_of min_y y) (column_of min_x x) = Some (Number value) /\
        entry pd (row_of min_y y) (column_of min_x x) = Some (_action_to_symbol (Member a)) /\
        np_max (q_of env (Q mem) (Hashable [x; y])) = Some m /\
        (value =? m)%float = true /\
        exists k, forall rnd' : Entropy, py_stream rnd' (py_used mem) = k ->
          predict env rnd' (Hashable [x; y]) mem = Returned (a, after_choice mem).
Proof.
  intros Hperm Hnan Hacts H.
  assert (Hne : Q mem <> ∅).
  { intros Hempty. apply print_Q_inv in H as [(_ & Hp & _)|(Hne & _)];
      [discriminate | congruence]. }
  apply (print_Q_box _ _ _ Hperm Hne) in H
    as (min_x & max_x & min_y & max_y & qm & pm & Hbb & Hfill & [= -> ->]).
  destruct Hfill as (_ & _ & Hdone & _).
  exists min_x, max_x, min_y, max_y. split; [exact Hbb|].
  intros x y Hin.
  destruct Hbb as (Hpairs & _). destruct (Hpairs _ Hin) as (x' & y' & [= <- <-] & Hxy).
  apply (elem_of_set_iter _ _ Hperm) in Hin.
  destruct (Hdone x y Hxy Hin) as (value & symbol & Hq & Hp & Hrep).
  unfold reported in Hrep.
  destruct (max_float _) as [max_q|] eqn:Hmax.
  2:{ exfalso. destruct (dict_keys (actions env)) eqn:E; [|discriminate Hmax].
      apply (proj1 (dict_keys_nil _)) in E. congruence. }
  destruct Hrep as (-> & a & Ha & Heq & ->).
  destruct (np_max_is_Some (q_of env (Q mem) (Hashable [x; y]))) as [m Hm].
  { rewrite q_of_map. intros E. apply Hacts. destruct (actions env); [reflexivity|discriminate E]. }
  assert (Hall : Forall (fun v => is_nan v = false)
                   (map (estimate (Q mem) [x; y]) (dict_keys (actions env)))).
  { apply Forall_forall. intros v Hv. apply list_elem_of_fmap in Hv as (b & -> & _).
    apply nan_free_estimate, Hnan. }
  assert (Hmq : (max_q =? m)%float = true).
  { pose proof (np_max_in _ _ Hm) as Hm_in. rewrite q_of_map in Hm_in.
    apply list_elem_of_fmap in Hm_in as (a1 & Em & Ha1). cbn [as_key] in Em.
    pose proof (max_float_in _ _ Hmax) as Hq_in.
    apply list_elem_of_fmap in Hq_in as (a0 & Eq0 & Ha0).
    apply (proj1 (elem_of_dict_keys _ _)) in Ha0.
    apply leb_antisym.
    - rewrite Eq0. apply (np_max_q_upper env (Q mem) (Hashable [x; y]) m a0 Hm); [|exact Ha0].
      rewrite Em. apply nan_free_estimate, Hnan.
    - rewrite Em. apply (max_float_upper _ _ Hmax Hall).
      apply list_elem_of_fmap. exists a1. split; [reflexivity|].
      apply elem_of_dict_keys, Ha1. }
  exists max_q, a, m. unfold display_Q, display_Policy. rewrite !entry_map, Hq, Hp.
  split; [reflexivity|]. split; [reflexivity|]. split; [exact Hm|]. split; [exact Hmq|].
  apply (predict_reaches env (Hashable [x; y]) mem a m Hm Ha).
  cbn [as_key]. eapply eqb_trans; eauto.
Qed.

End Report.

Lemma print_Q_notice_iff_empty_witness :
  print_Q Demo.win_at_once (Demo.draws_from 0) elements Demo.start
  = Returned (Q_table_is_empty, Demo.start).
Proof.
  apply (proj1 (print_Q_notice_iff_empty Demo.win_at_once (Demo.draws_from 0) elements
                  Demo.start)).
  reflexivity.
Defined.

Lemma print_Q_read_only_witness :
  exists p mem',
    print_Q Demo.win_at_once (Demo.draws_from 0) elements DemoTables.two_states
    = Returned (p, mem') /\
    Q mem' = Q DemoTables.two_states /\ py_used mem' = 2%nat.
Proof.
  assert (Hrun : exists p mem',
            print_Q Demo.win_at_once (Demo.draws_from 0) elements DemoTables.two_states
            = Returned (p, mem'))
    by (eexists _, _; vm_compute; reflexivity).
  destruct Hrun as (p & mem' & Hrun).
  destruct (print_Q_read_only Demo.win_at_once (Demo.draws_from 0) elements
              DemoTables.two_states p mem' (reflexivity _) Hrun) as (HQ & _ & _ & Hpy).
  exists p, mem'. split; [exact Hrun|]. split; [exact HQ|].
  rewrite Hpy. vm_compute. reflexivity.
Defined.

Lemma print_Q_grid_witness :
  exists qd pd,
    returned_value (print_Q Demo.win_at_once (Demo.draws_from 0) elements DemoTables.two_states)
    = Some (Matrices qd pd) /\
    exists min_x max_x min_y max_y,
      bounding_box (table_states (Q DemoTables.two_states)) min_x max_x min_y max_y /\
      has_shape qd (Z.to_nat (max_y - min_y + 1)) (Z.to_nat (max_x - min_x + 1)).
Proof.
  assert (Hrun : exists qd pd mem',
            print_Q Demo.win_at_once (Demo.draws_from 0) elements DemoTables.two_states
            = Returned (Matrices qd pd, mem'))
    by (eexists _, _, _; vm_compute; reflexivity).
  destruct Hrun as (qd & pd & mem' & Hrun).
  destruct (print_Q_grid Demo.win_at_once (Demo.draws_from 0) elements
              DemoTables.two_states qd pd mem' (reflexivity _) Hrun)
    as (min_x & max_x & min_y & max_y & Hbb & Hq & _).
  exists qd, pd. split; [rewrite Hrun; reflexivity|].
  exists min_x, max_x, min_y, max_y. split; [exact Hbb | exact Hq].
Defined.

Lemma print_Q_needs_pairs_witness :
  print_Q Demo.win_at_once (Demo.draws_from 0) elements DemoTables.short_state
  = Raised IndexError.
Proof.
  apply (proj1 (print_Q_needs_pairs Demo.win_at_once (Demo.draws_from 0) elements
                  DemoTables.short_state [4]%Z MOVE_UP (reflexivity _)
                  (ex_intro _ 1%float eq_refl))).
  simpl. lia.
Defined.

Lemma nan_free_two_states : nan_free (Q DemoTables.two_states).
Proof.
  apply nan_free_insert; [reflexivity|]. apply nan_free_insert; [reflexivity|].
  apply nan_free_empty.
Qed.

Lemma print_Q_shows_greedy_policy_witness :
  exists qd pd,
    returned_value (print_Q Demo.win_at_once (Demo.draws_from 0) elements DemoTables.two_states)
    = Some (Matrices qd pd) /\
    exists min_x max_x min_y max_y,
      bounding_box (table_states (Q DemoTables.two_states)) min_x max_x min_y max_y.
Proof.
  assert (Hrun : exists qd pd mem',
            print_Q Demo.win_at_once (Demo.draws_from 0) elements DemoTables.two_states
            = Returned (Matrices qd pd, mem'))
    by (eexists _, _, _; vm_compute; reflexivity).
  destruct Hrun as (qd & pd & mem' & Hrun).
  assert (Hacts : actions Demo.win_at_once <> []) by discriminate.
  destruct (print_Q_shows_greedy_policy Demo.win_at_once (Demo.draws_from 0) elements
              DemoTables.two_states qd pd mem' (reflexivity _) nan_free_two_states Hacts Hrun)
    as (min_x & max_x & min_y & max_y & Hbb & _).
  exists qd, pd. split; [rewrite Hrun; reflexivity|].
  exists min_x, max_x, min_y, max_y. exact Hbb.
Defined.

(** X14: the four actions have four different symbols, and none of them is
    the symbol of an unknown action or the placeholder of an empty cell: a
    symbol of the policy matrix names one action. *)
Theorem action_symbols_distinct :
  (forall a b, _action_to_symbol (Member a) = _action_to_symbol (Member b) -> a = b) /\
  (forall a s, _action_to_symbol (Member a) <> _action_to_symbol (NotAnAction s)) /\
  (forall a, _action_to_symbol (Member a) <> "-"%string).
Proof.
  split; [|split].
  - intros [] []; cbn [_action_to_symbol]; intros H; first [reflexivity | discriminate H].
  - intros [] s; cbn [_action_to_symbol]; discriminate.
  - intros []; cbn [_action_to_symbol]; discriminate.
Qed.
